(** * The reactive state container of the bookkeeping dashboard

    A shallow embedding of [StateManager] (frontend/src/store) and of the
    initial application state it is built from, with the properties of the
    container's specification stated and proved over it.

    The container is JavaScript: its behaviour rests on reference identity
    ([===] on objects), on in-place mutation of a shared object graph and on
    callbacks that may throw.  The embedding therefore keeps

    - an explicit heap of objects, arrays and dates; a value is a primitive
      or a reference into the heap;
    - numbers as IEEE 754 doubles (the kernel's primitive floats), so that
      [NaN === NaN] is false as in the source language;
    - a state-and-completion monad over the "world": heap, the manager's
      fields and the trace of observable effects (listener invocations and
      console lines).

    Not modelled: prototype chains (inherited members such as [constructor]
    or [toString] read as [undefined]), function values stored in the state,
    and re-entrant listeners (a listener is an observer that returns or
    throws; it does not call back into the manager). *)

From Stdlib Require Import PrimFloat Ascii String.
From stdpp Require Import base list strings.

#[local] Set Warnings "-register-all".

Local Open Scope string_scope.
Local Open Scope list_scope.

(** ** JavaScript values over a heap *)

Module Js.

(** Heap locations. *)
Abbreviation loc := nat (only parsing).

Inductive Value : Type :=
| VUndefined
| VNull
| VBool (b : bool)
| VNum (x : float)
| VStr (s : string)
| VRef (l : loc).

(** Heap cells.  A plain object keeps its own properties in insertion
    order. *)
Inductive HObj : Type :=
| OObject (props : list (string * Value))
| OArray (items : list Value)
| ODate (time : float).

Abbreviation Heap := (list HObj) (only parsing).

(** What a call can raise.  [Unmodelled] marks an operation this embedding
    does not describe (a non-index property written on an array, a dangling
    reference). *)
Inductive Exn : Type :=
| TypeError
| RangeError
| ListenerThrew (listener : nat)
| Unmodelled.

Inductive Completion (A : Type) : Type :=
| Normal (a : A)
| Abrupt (e : Exn).
Arguments Normal {A} a.
Arguments Abrupt {A} e.

Definition alloc (o : HObj) (h : Heap) : Value * Heap :=
  (VRef (List.length h), h ++ [o]).

(** [ToBoolean]. *)
Definition truthy (v : Value) : bool :=
  match v with
  | VUndefined | VNull => false
  | VBool b => b
  | VNum x => negb (PrimFloat.eqb x 0) && PrimFloat.eqb x x
  | VStr s => negb (String.eqb s "")
  | VRef _ => true
  end.

(** [a === b]: primitives by value (with [NaN] unequal to itself),
    objects by reference. *)
Definition strict_eq (a b : Value) : bool :=
  match a, b with
  | VUndefined, VUndefined => true
  | VNull, VNull => true
  | VBool x, VBool y => Bool.eqb x y
  | VNum x, VNum y => PrimFloat.eqb x y
  | VStr x, VStr y => String.eqb x y
  | VRef x, VRef y => Nat.eqb x y
  | _, _ => false
  end.

Definition is_null (v : Value) : bool :=
  match v with VNull => true | _ => false end.

Definition is_NaN (v : Value) : bool :=
  match v with VNum x => negb (PrimFloat.eqb x x) | _ => false end.

Fixpoint float_of_nat (n : nat) : float :=
  match n with
  | O => 0%float
  | S k => (float_of_nat k + 1)%float
  end.

(** Own properties of a plain object. *)
Fixpoint prop_lookup (key : string) (props : list (string * Value)) : option Value :=
  match props with
  | [] => None
  | (k, v) :: rest => if String.eqb k key then Some v else prop_lookup key rest
  end.

Fixpoint prop_update (key : string) (v : Value) (props : list (string * Value))
  : list (string * Value) :=
  match props with
  | [] => [(key, v)]
  | (k, old) :: rest =>
      if String.eqb k key then (k, v) :: rest
      else (k, old) :: prop_update key v rest
  end.

(** Canonical array indices: ["0"], or digits without a leading zero. *)
Definition digit_of (c : ascii) : option nat :=
  let n := nat_of_ascii c in
  if (48 <=? n)%nat && (n <=? 57)%nat then Some (n - 48) else None.

Fixpoint parse_digits (s : string) (acc : nat) : option nat :=
  match s with
  | EmptyString => Some acc
  | String c rest =>
      match digit_of c with
      | Some d => parse_digits rest (10 * acc + d)
      | None => None
      end
  end.

Definition parse_index (s : string) : option nat :=
  match s with
  | EmptyString => None
  | String c rest =>
      if Ascii.eqb c "0"%char
      then (if String.eqb rest "" then Some 0 else None)
      else parse_digits s 0
  end.

Definition array_get (key : string) (items : list Value) : Value :=
  if String.eqb key "length" then VNum (float_of_nat (List.length items))
  else match parse_index key with
       | Some i => default VUndefined (items !! i)
       | None => VUndefined
       end.

Definition string_get (key : string) (s : string) : Value :=
  if String.eqb key "length" then VNum (float_of_nat (String.length s))
  else match parse_index key with
       | Some i => match String.get i s with
                   | Some c => VStr (String c EmptyString)
                   | None => VUndefined
                   end
       | None => VUndefined
       end.

(** [obj[key]] as a read.  Reading a property of [null] or [undefined]
    raises. *)
Definition get_prop (h : Heap) (obj : Value) (key : string) : Completion Value :=
  match obj with
  | VUndefined | VNull => Abrupt TypeError
  | VBool _ | VNum _ => Normal VUndefined
  | VStr s => Normal (string_get key s)
  | VRef l =>
      match h !! l with
      | Some (OObject props) => Normal (default VUndefined (prop_lookup key props))
      | Some (OArray items) => Normal (array_get key items)
      | Some (ODate _) | None => Normal VUndefined
      end
  end.

(** [obj?.[key]]. *)
Definition get_prop_opt (h : Heap) (obj : Value) (key : string) : Value :=
  match get_prop h obj key with
  | Normal v => v
  | Abrupt _ => VUndefined
  end.

Definition array_store (i : nat) (v : Value) (items : list Value) : list Value :=
  if (i <? List.length items)%nat then <[i := v]> items
  else items ++ replicate (i - List.length items) VUndefined ++ [v].

(** [obj[key] = v] in strict mode (class bodies and modules are strict):
    assigning a property on a primitive raises. *)
Definition set_prop (h : Heap) (obj : Value) (key : string) (v : Value)
  : Completion Heap :=
  match obj with
  | VRef l =>
      match h !! l with
      | Some (OObject props) => Normal (<[l := OObject (prop_update key v props)]> h)
      | Some (OArray items) =>
          match parse_index key with
          | Some i => Normal (<[l := OArray (array_store i v items)]> h)
          | None => Abrupt Unmodelled
          end
      | Some (ODate _) | None => Abrupt Unmodelled
      end
  | _ => Abrupt TypeError
  end.

Definition array_items (h : Heap) (v : Value) : option (list Value) :=
  match v with
  | VRef l => match h !! l with
              | Some (OArray items) => Some items
              | _ => None
              end
  | _ => None
  end.

Definition is_plain (h : Heap) (v : Value) : bool :=
  match v with
  | VRef l => match h !! l with
              | Some (OObject _) => true
              | _ => false
              end
  | _ => false
  end.

(** [path.split('.')]: never empty. *)
Fixpoint split_dot (s : string) : list string :=
  match s with
  | EmptyString => [EmptyString]
  | String c rest =>
      if Ascii.eqb c "."%char then EmptyString :: split_dot rest
      else match split_dot rest with
           | seg :: segs => String c seg :: segs
           | [] => [String c EmptyString]
           end
  end.

(** [keys.pop()]: the last element and the array without it. *)
Fixpoint pop (keys : list string) : option string * list string :=
  match keys with
  | [] => (None, [])
  | [k] => (Some k, [])
  | k :: rest => let '(lastkey, init) := pop rest in (lastkey, k :: init)
  end.

(** Threading the heap through a list, left to right ([Array.map] with an
    allocating callback). *)
Fixpoint map_heap (f : Value -> Heap -> Completion (Value * Heap))
    (vs : list Value) (h : Heap) : Completion (list Value * Heap) :=
  match vs with
  | [] => Normal ([], h)
  | v :: rest =>
      match f v h with
      | Abrupt e => Abrupt e
      | Normal (v', h1) =>
          match map_heap f rest h1 with
          | Abrupt e => Abrupt e
          | Normal (rest', h2) => Normal (v' :: rest', h2)
          end
      end
  end.

(** The element loop of [deepEqual]: stops at the first unequal pair. *)
Fixpoint all_equal (eq : Value -> Value -> Completion bool)
    (xs ys : list Value) : Completion bool :=
  match xs, ys with
  | x :: xs', y :: ys' =>
      match eq x y with
      | Abrupt e => Abrupt e
      | Normal false => Normal false
      | Normal true => all_equal eq xs' ys'
      end
  | _, _ => Normal true
  end.

(** Pure structure of a value: what a deep clone preserves. *)
Inductive Tree : Type :=
| TUndefined
| TNull
| TBool (b : bool)
| TNum (x : float)
| TStr (s : string)
| TDate (time : float)
| TArray (items : list Tree)
| TObject (props : list (string * Tree)).

Fixpoint map_option {A B} (f : A -> option B) (xs : list A) : option (list B) :=
  match xs with
  | [] => Some []
  | x :: rest =>
      match f x with
      | None => None
      | Some y => match map_option f rest with
                  | None => None
                  | Some ys => Some (y :: ys)
                  end
      end
  end.

(** The structure reachable from [v] together with the heap cells visited,
    when the value is at most [depth] levels deep and has no dangling
    reference. *)
Fixpoint view (depth : nat) (h : Heap) (v : Value) : option (Tree * list loc) :=
  match depth with
  | O => None
  | S d =>
      match v with
      | VUndefined => Some (TUndefined, [])
      | VNull => Some (TNull, [])
      | VBool b => Some (TBool b, [])
      | VNum x => Some (TNum x, [])
      | VStr s => Some (TStr s, [])
      | VRef l =>
          match h !! l with
          | Some (ODate t) => Some (TDate t, [l])
          | Some (OArray items) =>
              match map_option (view d h) items with
              | Some parts => Some (TArray (map fst parts), l :: concat (map snd parts))
              | None => None
              end
          | Some (OObject props) =>
              match map_option (view d h) (map snd props) with
              | Some parts =>
                  Some (TObject (combine (map fst props) (map fst parts)),
                        l :: concat (map snd parts))
              | None => None
              end
          | None => None
          end
      end
  end.

Definition snapshot (depth : nat) (h : Heap) (v : Value) : option Tree :=
  option_map fst (view depth h v).

Definition footprint (depth : nat) (h : Heap) (v : Value) : option (list loc) :=
  option_map snd (view depth h v).

(** Evaluating a literal: sub-terms first, then the enclosing object. *)
Fixpoint build (t : Tree) (h : Heap) : Value * Heap :=
  match t with
  | TUndefined => (VUndefined, h)
  | TNull => (VNull, h)
  | TBool b => (VBool b, h)
  | TNum x => (VNum x, h)
  | TStr s => (VStr s, h)
  | TDate time => alloc (ODate time) h
  | TArray items =>
      let '(vs, h1) :=
        fold_left (fun acc t => let '(v, h') := build t (snd acc) in (fst acc ++ [v], h'))
                  items ([], h) in
      alloc (OArray vs) h1
  | TObject props =>
      let '(vs, h1) :=
        fold_left (fun acc kt => let '(v, h') := build (snd kt) (snd acc) in
                                 (fst acc ++ [(fst kt, v)], h'))
                  props ([], h) in
      alloc (OObject vs) h1
  end.

End Js.

(** ** Insertion-ordered [Map] and [Set]

    The listener registry is a [Map<string, Set<listener>>]; both iterate in
    insertion order, so they are lists without repeated keys / elements. *)

Module Registry.

(** A listener is a function instance; only its identity matters here. *)
Abbreviation Listener := nat (only parsing).
Abbreviation ListenerSet := (list nat) (only parsing).
Abbreviation t := (list (string * list nat)) (only parsing).

Fixpoint set_has (x : Listener) (s : ListenerSet) : bool :=
  match s with
  | [] => false
  | y :: rest => Nat.eqb y x || set_has x rest
  end.

(** [Set.prototype.add]: an element already present keeps its place. *)
Definition set_add (x : Listener) (s : ListenerSet) : ListenerSet :=
  if set_has x s then s else s ++ [x].

(** [Set.prototype.delete]. *)
Fixpoint set_delete (x : Listener) (s : ListenerSet) : ListenerSet :=
  match s with
  | [] => []
  | y :: rest => if Nat.eqb y x then set_delete x rest else y :: set_delete x rest
  end.

Section MapOps.
Context {V : Type}.

Fixpoint map_get (key : string) (m : list (string * V)) : option V :=
  match m with
  | [] => None
  | (k, v) :: rest => if String.eqb k key then Some v else map_get key rest
  end.

Definition map_has (key : string) (m : list (string * V)) : bool :=
  match map_get key m with Some _ => true | None => false end.

(** [Map.prototype.set]: an existing key keeps its place. *)
Fixpoint map_set (key : string) (v : V) (m : list (string * V)) : list (string * V) :=
  match m with
  | [] => [(key, v)]
  | (k, old) :: rest =>
      if String.eqb k key then (k, v) :: rest
      else (k, old) :: map_set key v rest
  end.

(** [Map.prototype.delete]. *)
Fixpoint map_delete (key : string) (m : list (string * V)) : list (string * V) :=
  match m with
  | [] => []
  | (k, v) :: rest =>
      if String.eqb k key then map_delete key rest
      else (k, v) :: map_delete key rest
  end.

End MapOps.

(** The registry as the code keeps it: keys and listeners without repeats,
    no key bound to an empty set. *)
Definition well_formed (m : t) : Prop :=
  NoDup (map fst m) /\
  Forall (fun entry => NoDup (snd entry) /\ snd entry <> []) m.

End Registry.

(** ** The world and its monad *)

Import Js.
Export Registry.

Record HistoryEntry : Type := mkEntry {
  key : string;
  oldValue : Value;
  newValue : Value;
  timestamp : float;
}.

(** Observable effects, in the order they happen. *)
Inductive Event : Type :=
| Invoked (listener : Listener) (newValue oldValue : Value) (key : string)
| Warned (key : string) (value : Value)
| Errored (key : string) (error : Exn).

Record World : Type := mkWorld {
  heap : Heap;
  state : Value;               (* this.state *)
  listeners : Registry.t;      (* this.listeners *)
  history : list HistoryEntry; (* this.history *)
  trace : list Event;
}.

Definition with_heap (h : Heap) (w : World) : World :=
  mkWorld h (state w) (listeners w) (history w) (trace w).
Definition with_state (s : Value) (w : World) : World :=
  mkWorld (heap w) s (listeners w) (history w) (trace w).
Definition with_listeners (ls : Registry.t) (w : World) : World :=
  mkWorld (heap w) (state w) ls (history w) (trace w).
Definition with_history (hs : list HistoryEntry) (w : World) : World :=
  mkWorld (heap w) (state w) (listeners w) hs (trace w).
Definition emits (evs : list Event) (w : World) : World :=
  mkWorld (heap w) (state w) (listeners w) (history w) (trace w ++ evs).
Definition emit (e : Event) (w : World) : World := emits [e] w.

(** A computation runs in a world and completes normally or abruptly; the
    world it leaves is kept in both cases. *)
Definition M (A : Type) : Type := World -> Completion A * World.

Definition ret {A} (a : A) : M A := fun w => (Normal a, w).

Definition bind {A B} (m : M A) (k : A -> M B) : M B :=
  fun w => match m w with
           | (Normal a, w') => k a w'
           | (Abrupt e, w') => (Abrupt e, w')
           end.

Definition throw {A} (e : Exn) : M A := fun w => (Abrupt e, w).

Definition try_catch (body : M unit) (handler : Exn -> M unit) : M unit :=
  fun w => match body w with
           | (Normal a, w') => (Normal a, w')
           | (Abrupt e, w') => handler e w'
           end.

Definition gets {A} (f : World -> A) : M A := fun w => (Normal (f w), w).
Definition modify (f : World -> World) : M unit := fun w => (Normal tt, f w).

Declare Scope js_scope.
Delimit Scope js_scope with js.
Notation "'let*' x ':=' m 'in' k" := (bind m (fun x => k))
  (at level 10, x name, m at level 100, k at level 200) : js_scope.
Notation "m ';;' k" := (bind m (fun _ => k))
  (at level 100, k at level 200, right associativity) : js_scope.
Local Open Scope js_scope.

(** Heap operations lifted to the world. *)
Definition read_prop (obj : Value) (k : string) : M Value :=
  fun w => (get_prop (heap w) obj k, w).

Definition write_prop (obj : Value) (k : string) (v : Value) : M unit :=
  fun w => match set_prop (heap w) obj k v with
           | Normal h' => (Normal tt, with_heap h' w)
           | Abrupt e => (Abrupt e, w)
           end.

Definition new_object : M Value :=
  fun w => let '(v, h') := alloc (OObject []) (heap w) in (Normal v, with_heap h' w).

Fixpoint forEach {A} (xs : list A) (body : A -> M unit) : M unit :=
  match xs with
  | [] => ret tt
  | x :: rest => body x ;; forEach rest body
  end.

(** ** The initial application state (store/AppState) *)

Definition initialState_literal : Tree :=
  TObject
    [ ("activeTab", TStr "overview");
      ("isLoading", TBool false);
      ("currentRecord", TNull);
      ("currentRecordType", TNull);
      ("selectedHomeOfficeMethod", TNull);
      ("formStates", TObject []);
      ("modalStates", TObject []);
      ("notifications", TArray []);
      ("data", TObject
         [ ("income", TArray []);
           ("expenses", TArray []);
           ("mileage", TArray []);
           ("utilities", TArray []);
           ("taxPayments", TArray []);
           ("savingsGoals", TArray []) ]) ].

(** The heap once the module is loaded, and the exported constant. *)
Definition module_heap : Heap := snd (build initialState_literal []).
Definition initialState : Value := fst (build initialState_literal []).

(** The keys of [AppState]. *)
Definition top_level_keys : list string :=
  [ "activeTab"; "isLoading"; "currentRecord"; "currentRecordType";
    "selectedHomeOfficeMethod"; "formStates"; "modalStates"; "notifications";
    "data" ].

(** ** The state manager (store/StateManager) *)

Definition StateValidator := Value -> string -> bool.

(** [list.includes(value)] for a list of strings. *)
Definition includes (xs : list string) (value : Value) : bool :=
  match value with
  | VStr s => existsb (String.eqb s) xs
  | _ => false
  end.

Definition validTabs : list string :=
  [ "overview"; "income"; "expenses"; "deductions"; "taxes"; "goals" ].

Definition validTypes : list string :=
  [ "income"; "expenses"; "mileage"; "utilities"; "tax-payments"; "savings-goals" ].

(** The validator map.  The constructor fills it and nothing changes it
    afterwards, so it is a constant of the model. *)
Definition setupValidators : list (string * StateValidator) :=
  let validators := [] in
  let validators :=
    map_set "activeTab" (fun value _ => includes validTabs value) validators in
  let validators :=
    map_set "currentRecordType"
      (fun value _ => if is_null value then true else includes validTypes value)
      validators in
  let validators :=
    map_set "selectHomeOfficeMethod"
      (fun value _ => if is_null value then true
                      else includes [ "simplified"; "actual" ] value)
      validators in
  let validators :=
    map_set "currentRecord"
      (fun value _ => if is_null value then true
                      else match value with
                           | VNum x => PrimFloat.ltb 0 x
                           | _ => false
                           end)
      validators in
  validators.

(** [deepClone], with the depth of recursion still available.  The parts of
    an array or object are cloned first and the clone is allocated last;
    the source creates the empty clone first and fills it, which differs in
    the order of allocation only, and that order cannot be observed.  Own
    properties are cloned in the order they are stored in. *)
Fixpoint deepClone_rec (depth : nat) (obj : Value) (h : Heap)
  : Completion (Value * Heap) :=
  match depth with
  | O => Abrupt RangeError
  | S d =>
      match obj with
      | VRef l =>
          match h !! l with
          | Some (ODate time) => Normal (alloc (ODate time) h)
          | Some (OArray items) =>
              match map_heap (deepClone_rec d) items h with
              | Normal (items', h1) => Normal (alloc (OArray items') h1)
              | Abrupt e => Abrupt e
              end
          | Some (OObject props) =>
              match map_heap (deepClone_rec d) (map snd props) h with
              | Normal (vals, h1) =>
                  Normal (alloc (OObject (combine (map fst props) vals)) h1)
              | Abrupt e => Abrupt e
              end
          | None => Abrupt Unmodelled
          end
      | _ => Normal (obj, h)
      end
  end.

(** [deepEqual], with the depth of recursion still available. *)
Fixpoint deepEqual_rec (depth : nat) (h : Heap) (a b : Value) : Completion bool :=
  match depth with
  | O => Abrupt RangeError
  | S d =>
      if strict_eq a b then Normal true
      else if is_null a || is_null b then Normal false
      else match array_items h a, array_items h b with
           | Some xs, Some ys =>
               if negb (Nat.eqb (List.length xs) (List.length ys)) then Normal false
               else all_equal (deepEqual_rec d h) xs ys
           | _, _ => Normal false
           end
  end.

(** [path.split('.').reduce((obj, key) => obj?.[key], state)]. *)
Definition getNestedFromState (h : Heap) (state : Value) (path : string) : Value :=
  fold_left (get_prop_opt h) (split_dot path) state.

(** The surroundings a manager runs in. *)
Class Environment : Type := mkEnvironment {
  (** how deep the engine's call stack lets a recursion go before it raises
      [RangeError] *)
  stack_limit : nat;
  (** whether a listener throws when called with these arguments *)
  listener_throws : Listener -> Value -> Value -> string -> bool;
}.

Section StateManager.

Context {env : Environment}.

Definition deepClone (obj : Value) : M Value :=
  fun w => match deepClone_rec stack_limit obj (heap w) with
           | Normal (v, h') => (Normal v, with_heap h' w)
           | Abrupt e => (Abrupt e, w)
           end.

Definition deepEqual (a b : Value) : M bool :=
  fun w => (deepEqual_rec stack_limit (heap w) a b, w).

(** [new StateManager(initialState)] in heap [h]. *)
Definition constructor (initialState : Value) (h : Heap) : Completion World :=
  match deepClone initialState (mkWorld h VUndefined [] [] []) with
  | (Normal s, w) => Normal (with_state s w)
  | (Abrupt e, _) => Abrupt e
  end.

Definition invoke (listener : Listener) (newValue oldValue : Value) (k : string)
  : M unit :=
  fun w =>
    let w' := emit (Invoked listener newValue oldValue k) w in
    if listener_throws listener newValue oldValue k
    then (Abrupt (ListenerThrew listener), w')
    else (Normal tt, w').

Definition notifyListeners (k : string) (newValue oldValue : Value) : M unit :=
  let* registered := gets (fun w => map_get k (listeners w)) in
  match registered with
  | Some registered =>
      forEach registered (fun listener =>
        try_catch (invoke listener newValue oldValue k)
                  (fun error => modify (emit (Errored k error))))
  | None => ret tt
  end.

Definition get (k : string) : M Value :=
  let* s := gets state in
  read_prop s k.

Definition set (k : string) (value : Value) (now : float) : M unit :=
  let* oldValue := get k in
  let* unchanged := deepEqual oldValue value in
  if unchanged then ret tt
  else
    let validator := map_get k setupValidators in
    if match validator with
       | Some validator => negb (validator value k)
       | None => false
       end
    then modify (emit (Warned k value))
    else
      (let* s := gets state in write_prop s k value) ;;
      let* oldClone := deepClone oldValue in
      let* newClone := deepClone value in
      modify (fun w => with_history (history w ++ [mkEntry k oldClone newClone now]) w) ;;
      (let* n := gets (fun w => List.length (history w)) in
       if (100 <? n)%nat then modify (fun w => with_history (tail (history w)) w)
       else ret tt) ;;
      notifyListeners k value oldValue.

Definition getNested (path : string) : M Value :=
  gets (fun w => getNestedFromState (heap w) (state w) path).

(** The [reduce] of [setNested]: walk to the object that holds the leaf,
    putting an empty object wherever the next step is falsy. *)
Fixpoint descend (keys : list string) (obj : Value) : M Value :=
  match keys with
  | [] => ret obj
  | k :: rest =>
      let* next := read_prop obj k in
      (if negb (truthy next)
       then (let* fresh := new_object in write_prop obj k fresh)
       else ret tt) ;;
      let* next := read_prop obj k in
      descend rest next
  end.

Definition setNested (path : string) (value : Value) : M unit :=
  let '(lastkey, keys) := pop (split_dot path) in
  match lastkey with
  | None => ret tt
  | Some lastkey =>
      if String.eqb lastkey "" then ret tt
      else
        let* s := gets state in
        let* target := descend keys s in
        let* oldValue := read_prop target lastkey in
        write_prop target lastkey value ;;
        notifyListeners path value oldValue
  end.

Definition subscribe (k : string) (listener : Listener) : M unit :=
  (let* present := gets (fun w => map_has k (listeners w)) in
   if negb present then modify (fun w => with_listeners (map_set k [] (listeners w)) w)
   else ret tt) ;;
  modify (fun w =>
    match map_get k (listeners w) with
    | Some s => with_listeners (map_set k (set_add listener s) (listeners w)) w
    | None => w
    end).

(** The closure [subscribe] returns; it captures [keyStr] and [listener]. *)
Definition unsubscribe (k : string) (listener : Listener) : M unit :=
  let* registered := gets (fun w => map_get k (listeners w)) in
  match registered with
  | Some s =>
      let s' := set_delete listener s in
      modify (fun w => with_listeners (map_set k s' (listeners w)) w) ;;
      if Nat.eqb (List.length s') 0
      then modify (fun w => with_listeners (map_delete k (listeners w)) w)
      else ret tt
  | None => ret tt
  end.

Definition getState : M Value :=
  let* s := gets state in
  deepClone s.

Definition reset : M unit :=
  let* s := gets state in
  let* oldState := deepClone s in
  let* fresh := deepClone initialState in
  modify (with_state fresh) ;;
  let* entries := gets listeners in
  forEach entries (fun '(k, _) =>
    let* newValue := getNested k in
    let* oldValue := gets (fun w => getNestedFromState (heap w) oldState k) in
    notifyListeners k newValue oldValue).

Definition getHistory : M (list HistoryEntry) := gets history.

Definition clearHistory : M unit := modify (with_history []).

End StateManager.

(** ** Vocabulary of the properties *)

(** The equality of the specification: two values are equal when they are
    identical ([===]), or when both are arrays of the same length whose
    elements are pairwise equal under the same rule. *)
Inductive array_equal (h : Heap) : Value -> Value -> Prop :=
| equal_identical (a b : Value) :
    strict_eq a b = true -> array_equal h a b
| equal_arrays (a b : Value) (xs ys : list Value) :
    array_items h a = Some xs ->
    array_items h b = Some ys ->
    Forall2 (array_equal h) xs ys ->
    array_equal h a b.

(** Arrays nested at most [depth] levels below [v]. *)
Fixpoint within_depth (depth : nat) (h : Heap) (v : Value) : bool :=
  match depth with
  | O => false
  | S d =>
      match array_items h v with
      | Some xs => forallb (within_depth d h) xs
      | None => true
      end
  end.



(** The values the walk of [setNested] goes through from [obj] along
    [keys], as far as they are there: it stops at the first falsy step. *)
Fixpoint walk (h : Heap) (obj : Value) (keys : list string) : list Value :=
  obj ::
  match keys with
  | [] => []
  | k :: rest =>
      let next := get_prop_opt h obj k in
      if truthy next then walk h next rest else []
  end.






Definition is_invocation (l : Listener) (k : string) (e : Event) : bool :=
  match e with
  | Invoked l' _ _ k' => Nat.eqb l' l && String.eqb k' k
  | _ => false
  end.

(** How many times listener [l] was called for key [k]. *)
Definition invocations (l : Listener) (k : string) (evs : list Event) : nat :=
  List.length (List.filter (is_invocation l k) evs).

Definition is_invoked (e : Event) : bool :=
  match e with Invoked _ _ _ _ => true | _ => false end.


(** The listeners registered under [k]. *)
Definition registered (k : string) (w : World) : ListenerSet :=
  default [] (map_get k (listeners w)).


(** The root of the state tree is a plain object. *)
Definition state_ok (w : World) : bool := is_plain (heap w) (state w).

Section Vocabulary.

Context {env : Environment}.

(** What one notification leaves in the trace: every listener of the set is
    invoked in turn, and a listener that throws is followed by the logged
    error. *)
Definition notify_events (k : string) (newValue oldValue : Value) (ls : ListenerSet)
  : list Event :=
  flat_map (fun l =>
    Invoked l newValue oldValue k ::
    (if listener_throws l newValue oldValue k
     then [Errored k (ListenerThrew l)] else [])) ls.






(** A computation that never lets a listener's exception out. *)
Definition contains_listener_errors {A} (m : M A) : Prop :=
  forall (w : World) (l : Listener), fst (m w) <> Abrupt (ListenerThrew l).

(** A computation that leaves the history log alone, however it ends. *)
Definition keeps_history {A} (m : M A) : Prop :=
  forall (w : World), history (snd (m w)) = history w.

(** The calls a client can make on the manager. *)
Inductive Op : Type :=
| OpSet (k : string) (value : Value) (now : float)
| OpSetNested (path : string) (value : Value)
| OpSubscribe (k : string) (listener : Listener)
| OpUnsubscribe (k : string) (listener : Listener)
| OpReset
| OpClearHistory.



End Vocabulary.

(** ** A running instance

    The singleton of store/index: the module is loaded, then
    [new StateManager(initialState)]. *)

Definition quiet : Environment := mkEnvironment 64 (fun _ _ _ _ => false).

Definition boot : World :=
  match constructor (env := quiet) initialState module_heap with
  | Normal w => w
  | Abrupt _ => mkWorld [] VUndefined [] [] []
  end.

(** An environment in which listener 1 throws on every call. *)
Definition faulty : Environment := mkEnvironment 64 (fun l _ _ _ => Nat.eqb l 1).

(** The instance with listeners 1 and 2 on the active tab and listener 3 on
    the income collection. *)
Definition watched : World :=
  snd (subscribe "data.income" 3
         (snd (subscribe "activeTab" 2 (snd (subscribe "activeTab" 1 boot))))).

(** The instance after [NaN] was written to the loading flag (a batch
    update passes any value on to [set]), with listener 1 on that key. *)
Definition nan_stored : World :=
  snd (subscribe "isLoading" 1
         (snd (set (env := quiet) "isLoading" (VNum nan) 1%float boot))).


(** A manager built on an initial state whose selected record is [NaN] (a
    [number], as the type of the field asks). *)
Definition nan_record : World :=
  let literal :=
    match initialState_literal with
    | TObject props =>
        TObject (map (fun kt => if String.eqb (fst kt) "currentRecord"
                                then (fst kt, TNum nan) else kt) props)
    | t => t
    end in
  let '(init, h) := build literal [] in
  match constructor (env := quiet) init h with
  | Normal w => w
  | Abrupt _ => mkWorld [] VUndefined [] [] []
  end.

(** [NoDup] of a list given in full. *)
Ltac distinct_elements :=
  repeat (apply NoDup_cons_2;
          [rewrite list_elem_of_In; simpl; intuition discriminate|]);
  apply NoDup_nil_2.

(** ** Further operations of the language

    What the actions of store/StateActions use beyond reading and writing
    a property. *)

From Stdlib Require Import ZArith FloatOps FloatAxioms SpecFloat.
From stdpp Require Import pretty.

Local Open Scope string_scope.
Local Open Scope list_scope.
Local Open Scope js_scope.

Definition lift {A} (c : Completion A) : M A := fun w => (c, w).

Definition new_cell (o : HObj) : M Value :=
  fun w => let '(v, h') := alloc o (heap w) in (Normal v, with_heap h' w).

(** The own enumerable properties of a value, as [{...v}] copies them:
    those of a plain object, the elements of an array or the characters of
    a string under their indices, nothing for the other values. *)
Definition own_props (h : Heap) (v : Value) : Completion (list (string * Value)) :=
  match v with
  | VStr s =>
      Normal (imap (fun i c => (pretty i, VStr (String c EmptyString)))
                   (list_ascii_of_string s))
  | VRef l =>
      match h !! l with
      | Some (OObject props) => Normal props
      | Some (OArray items) => Normal (imap (fun i x => (pretty i, x)) items)
      | Some (ODate _) => Normal []
      | None => Abrupt Unmodelled
      end
  | _ => Normal []
  end.

(** [{ ...v }]: a new plain object with the own properties of [v]. *)
Definition spread_object (v : Value) : M Value :=
  let* props := (fun w => (own_props (heap w) v, w)) in
  new_cell (OObject props).

(** [Object.keys(v)]. *)
Definition Object_keys (v : Value) : M (list string) :=
  match v with
  | VUndefined | VNull => throw TypeError
  | _ => let* props := (fun w => (own_props (heap w) v, w)) in ret (map fst props)
  end.

(** [delete obj[key]] on a plain object. *)
Fixpoint prop_delete (key : string) (props : list (string * Value))
  : list (string * Value) :=
  match props with
  | [] => []
  | (k, v) :: rest =>
      if String.eqb k key then prop_delete key rest
      else (k, v) :: prop_delete key rest
  end.

Definition delete_prop (obj : Value) (k : string) : M unit :=
  fun w =>
    match obj with
    | VRef l =>
        match heap w !! l with
        | Some (OObject props) =>
            (Normal tt, with_heap (<[l := OObject (prop_delete k props)]> (heap w)) w)
        | _ => (Abrupt Unmodelled, w)
        end
    | VUndefined | VNull => (Abrupt TypeError, w)
    | _ => (Normal tt, w)
    end.

(** The elements [...v] iterates over: those of an array, the characters
    of a string; the other values are not iterable. *)
Definition iterate (v : Value) : M (list Value) :=
  fun w =>
    match v with
    | VStr s =>
        (Normal (map (fun c => VStr (String c EmptyString)) (list_ascii_of_string s)), w)
    | VRef l =>
        match heap w !! l with
        | Some (OArray items) => (Normal items, w)
        | Some _ => (Abrupt TypeError, w)
        | None => (Abrupt Unmodelled, w)
        end
    | _ => (Abrupt TypeError, w)
    end.

(** [v.filter((x, i) => keep i x)]: a new array.  Only an array has the
    method. *)
Definition array_filter (keep : nat -> Value -> bool) (v : Value) : M Value :=
  fun w =>
    match array_items (heap w) v with
    | Some items =>
        new_cell (OArray (map snd (List.filter (fun ix => keep (fst ix) (snd ix))
                                               (imap pair items)))) w
    | None => (Abrupt TypeError, w)
    end.

(** [ToNumber], for the values that need no parsing. *)
Definition to_number (v : Value) : Completion float :=
  match v with
  | VUndefined => Normal nan
  | VNull => Normal 0%float
  | VBool b => Normal (if b then 1%float else 0%float)
  | VNum x => Normal x
  | VStr _ | VRef _ => Abrupt Unmodelled
  end.

(** [v > bound]. *)
Definition greater_than (v : Value) (bound : float) : Completion bool :=
  match to_number v with
  | Normal x => Normal (PrimFloat.ltb bound x)
  | Abrupt e => Abrupt e
  end.

(** [key.includes('.')]. *)
Definition has_dot (key : string) : bool :=
  existsb (Ascii.eqb "."%char) (list_ascii_of_string key).

(** ** The actions (store/StateActions)

    Every action that reaches [set] is given the time [Date.now()] returns
    in that call. *)

Section StateActions.

Context {env : Environment}.

(** *** Tab management *)

Definition switchTab (tabName : string) (now : float) : M unit :=
  set "activeTab" (VStr tabName) now.

Definition getCurrentTab : M Value := get "activeTab".

(** *** Record management *)

Definition selectRecord (type : string) (id : float) (now now' : float) : M unit :=
  set "currentRecordType" (VStr type) now ;;
  set "currentRecord" (VNum id) now'.

Definition clearSelectedRecord (now now' : float) : M unit :=
  set "currentRecord" VNull now ;;
  set "currentRecordType" VNull now'.

Definition getSelectedRecord : M Value :=
  let* type := get "currentRecordType" in
  let* id := get "currentRecord" in
  new_cell (OObject [("type", type); ("id", id)]).

(** *** Home office method *)

Definition setHomeOfficeMethod (method : option string) (now : float) : M unit :=
  set "selectedHomeOfficeMethod" (from_option VStr VNull method) now.

Definition getHomeOfficeMethod : M Value := get "selectedHomeOfficeMethod".

(** *** Modal management *)

Definition showModal (modalId : string) (now : float) : M unit :=
  let* stored := get "modalStates" in
  let* modalStates := spread_object stored in
  write_prop modalStates modalId (VBool true) ;;
  set "modalStates" modalStates now.

Definition hideModal (modalId : string) (now : float) : M unit :=
  let* stored := get "modalStates" in
  let* modalStates := spread_object stored in
  write_prop modalStates modalId (VBool false) ;;
  set "modalStates" modalStates now.

Definition isModalOpen (modalId : string) : M Value :=
  let* modalStates := get "modalStates" in
  let* open := read_prop modalStates modalId in
  ret (if truthy open then open else VBool false).

Definition hideAllModals (now : float) : M unit :=
  let* stored := get "modalStates" in
  let* modalStates := spread_object stored in
  let* keys := Object_keys modalStates in
  forEach keys (fun key => write_prop modalStates key (VBool false)) ;;
  set "modalStates" modalStates now.

(** *** Loading state *)

Definition setLoading (isLoading : bool) (now : float) : M unit :=
  set "isLoading" (VBool isLoading) now.

Definition isLoading : M Value := get "isLoading".

(** *** Data *)

Definition setOverviewData (data : Value) : M unit := setNested "data.overview" data.
Definition getOverviewData : M Value := getNested "data.overview".

Definition setIncomeData (data : Value) : M unit := setNested "data.income" data.
Definition getIncomeData : M Value :=
  let* stored := getNested "data.income" in
  if truthy stored then ret stored else new_cell (OArray []).

Definition setExpenseData (data : Value) : M unit := setNested "data.expenses" data.
Definition getExpenseData : M Value :=
  let* stored := getNested "data.expenses" in
  if truthy stored then ret stored else new_cell (OArray []).

Definition setMileageData (data : Value) : M unit := setNested "data.mileage" data.
Definition getMileageData : M Value :=
  let* stored := getNested "data.mileage" in
  if truthy stored then ret stored else new_cell (OArray []).

Definition setUtilityData (data : Value) : M unit := setNested "data.utilities" data.
Definition getUtilityData : M Value :=
  let* stored := getNested "data.utilities" in
  if truthy stored then ret stored else new_cell (OArray []).

Definition setHomeOfficeData (data : Value) : M unit := setNested "data.homeOffice" data.
Definition getHomeOfficeData : M Value := getNested "data.homeOffice".

Definition setTaxSettingsData (data : Value) : M unit := setNested "data.taxSettings" data.
Definition getTaxSettingsData : M Value := getNested "data.taxSettings".

Definition setTaxPaymentsData (data : Value) : M unit := setNested "data.taxPayments" data.
Definition getTaxPaymentsData : M Value :=
  let* stored := getNested "data.taxPayments" in
  if truthy stored then ret stored else new_cell (OArray []).

Definition setSavingsGoalsData (data : Value) : M unit := setNested "data.savingsGoals" data.
Definition getSavingsGoalsData : M Value :=
  let* stored := getNested "data.savingsGoals" in
  if truthy stored then ret stored else new_cell (OArray []).

(** The object literal of [clearAllData]: six empty arrays, then the
    object that holds them. *)
Definition empty_data : M Value :=
  let* income := new_cell (OArray []) in
  let* expenses := new_cell (OArray []) in
  let* mileage := new_cell (OArray []) in
  let* utilities := new_cell (OArray []) in
  let* taxPayments := new_cell (OArray []) in
  let* savingsGoals := new_cell (OArray []) in
  new_cell (OObject [ ("income", income); ("expenses", expenses);
                      ("mileage", mileage); ("utilities", utilities);
                      ("taxPayments", taxPayments); ("savingsGoals", savingsGoals) ]).

Definition clearAllData : M unit :=
  let* data := empty_data in
  setNested "data" data.

(** *** Notifications *)

Definition addNotification (notification : Value) (now : float) : M unit :=
  let* stored := get "notifications" in
  let* items := iterate stored in
  let* notifications := new_cell (OArray (items ++ [notification])) in
  set "notifications" notifications now.

(** The index is an integer here; a [number] that is no integer matches no
    position, like an integer out of range. *)
Definition removeNotification (index : Z) (now : float) : M unit :=
  let* stored := get "notifications" in
  let* notifications :=
    array_filter (fun i _ => negb (Z.eqb (Z.of_nat i) index)) stored in
  set "notifications" notifications now.

Definition clearNotifications (now : float) : M unit :=
  let* empty := new_cell (OArray []) in
  set "notifications" empty now.

Definition getNotifications : M Value := get "notifications".

(** *** Form states *)

Definition setFormState (formId : string) (formState : Value) (now : float) : M unit :=
  let* stored := get "formStates" in
  let* formStates := spread_object stored in
  write_prop formStates formId formState ;;
  set "formStates" formStates now.

Definition getFormState (formId : string) : M Value :=
  let* formStates := get "formStates" in
  read_prop formStates formId.

Definition clearFormState (formId : string) (now : float) : M unit :=
  let* stored := get "formStates" in
  let* formStates := spread_object stored in
  delete_prop formStates formId ;;
  set "formStates" formStates now.

Definition clearAllFormStates (now : float) : M unit :=
  let* empty := new_cell (OObject []) in
  set "formStates" empty now.

(** *** Utility methods *)

Definition getFullState : M Value := getState.
Definition resetState : M unit := reset.
Definition getStateHistory : M (list HistoryEntry) := getHistory.
Definition clearStateHistory : M unit := clearHistory.

(** *** Convenience methods *)

Definition isAnyDataLoading : M Value := get "isLoading".

(** [v.length > 0]. *)
Definition has_elements (v : Value) : M bool :=
  let* n := read_prop v "length" in
  lift (greater_than n 0).

Definition hasDataForTab (tabName : string) : M bool :=
  if String.eqb tabName "overview" then
    let* overview := getOverviewData in ret (truthy overview)
  else if String.eqb tabName "income" then
    let* income := getIncomeData in has_elements income
  else if String.eqb tabName "expenses" then
    let* expenses := getExpenseData in has_elements expenses
  else if String.eqb tabName "deductions" then
    let* mileage := getMileageData in
    let* some := has_elements mileage in
    if some then ret true
    else
      let* utilities := getUtilityData in
      let* some := has_elements utilities in
      if some then ret true
      else let* homeOffice := getHomeOfficeData in ret (truthy homeOffice)
  else if String.eqb tabName "taxes" then
    let* taxSettings := getTaxSettingsData in
    if truthy taxSettings then ret true
    else let* taxPayments := getTaxPaymentsData in has_elements taxPayments
  else if String.eqb tabName "goals" then
    let* savingsGoals := getSavingsGoalsData in has_elements savingsGoals
  else ret false.

Definition getDataCounts : M Value :=
  let* income := (let* d := getIncomeData in read_prop d "length") in
  let* expenses := (let* d := getExpenseData in read_prop d "length") in
  let* mileage := (let* d := getMileageData in read_prop d "length") in
  let* utilities := (let* d := getUtilityData in read_prop d "length") in
  let* taxPayments := (let* d := getTaxPaymentsData in read_prop d "length") in
  let* savingsGoals := (let* d := getSavingsGoalsData in read_prop d "length") in
  new_cell (OObject [ ("income", income); ("expenses", expenses);
                      ("mileage", mileage); ("utilities", utilities);
                      ("taxPayments", taxPayments); ("savingsGoals", savingsGoals) ]).

(** The entries of [updates] in the order [Object.entries] lists them, each
    with the time of its call. *)
Definition batchUpdate (updates : list (string * Value * float)) : M unit :=
  forEach updates (fun '(key, value, now) =>
    if has_dot key then setNested key value else set key value now).

End StateActions.

(** ** Vocabulary of the further properties *)

(** The values a cell holds. *)
Definition values_of (o : HObj) : list Value :=
  match o with
  | OObject props => map snd props
  | OArray items => items
  | ODate _ => []
  end.

(** A value that is a primitive or refers to one of the first [n] cells. *)
Definition valid (n : nat) (v : Value) : bool :=
  match v with
  | VRef l => (l <? n)%nat
  | _ => true
  end.

(** A heap without dangling references, as every heap of a running
    program is. *)
Definition closed (h : Heap) : bool :=
  forallb (fun o => forallb (valid (List.length h)) (values_of o)) h.

(** A value that is a primitive or refers to a cell from [a] on, below
    [b]. *)
Definition within (a b : nat) (v : Value) : bool :=
  match v with
  | VRef l => (a <=? l)%nat && (l <? b)%nat
  | _ => true
  end.

(** What a clone is made of: the heap is extended, and the new cells and
    the result refer to new cells only. *)
Definition fresh_cells (h h' : Heap) : Prop :=
  exists extra,
    h' = h ++ extra /\
    Forall (fun o => Forall (fun v => within (List.length h) (List.length h') v = true)
                            (values_of o)) extra.



(** A value that is a primitive or refers to a cell allocated after the
    module was loaded: it is no part of the exported [initialState]. *)
Definition outside (v : Value) : bool :=
  match v with
  | VRef l => (List.length module_heap <=? l)%nat
  | _ => true
  end.

(** The manager is in order: the cells of the module are as they were when
    it was loaded and no later cell refers to them, the state is an object
    of its own, and the registry is well formed. *)
Definition sound (w : World) : Prop :=
  (exists rest,
      heap w = module_heap ++ rest /\
      Forall (fun o => Forall (fun v => outside v = true) (values_of o)) rest) /\
  outside (state w) = true /\
  state_ok w = true /\
  well_formed (listeners w).

(** A computation that keeps the invariant [I] however it ends, and whose
    result, when there is one, satisfies [Q]. *)
Definition respects {A} (I : World -> Prop) (Q : A -> Prop) (m : M A) : Prop :=
  forall w, I w -> I (snd (m w)) /\ forall a, fst (m w) = Normal a -> Q a.

(** A computation that leaves at most a hundred entries in a log of at most
    a hundred. *)
Definition bounded {A} (m : M A) : Prop :=
  forall w, List.length (history w) <= 100 -> List.length (history (snd (m w))) <= 100.

(** The calls a client can make on the actions. *)
Inductive Action : Type :=
| SwitchTab (tabName : string) (now : float)
| GetCurrentTab
| SelectRecord (type : string) (id : float) (now now' : float)
| ClearSelectedRecord (now now' : float)
| GetSelectedRecord
| SetHomeOfficeMethod (method : option string) (now : float)
| GetHomeOfficeMethod
| ShowModal (modalId : string) (now : float)
| HideModal (modalId : string) (now : float)
| IsModalOpen (modalId : string)
| HideAllModals (now : float)
| SetLoading (isLoading : bool) (now : float)
| IsLoading
| SetOverviewData (data : Value)
| GetOverviewData
| SetIncomeData (data : Value)
| GetIncomeData
| SetExpenseData (data : Value)
| GetExpenseData
| SetMileageData (data : Value)
| GetMileageData
| SetUtilityData (data : Value)
| GetUtilityData
| SetHomeOfficeData (data : Value)
| GetHomeOfficeData
| SetTaxSettingsData (data : Value)
| GetTaxSettingsData
| SetTaxPaymentsData (data : Value)
| GetTaxPaymentsData
| SetSavingsGoalsData (data : Value)
| GetSavingsGoalsData
| ClearAllData
| AddNotification (notification : Value) (now : float)
| RemoveNotification (index : Z) (now : float)
| ClearNotifications (now : float)
| GetNotifications
| SetFormState (formId : string) (formState : Value) (now : float)
| GetFormState (formId : string)
| ClearFormState (formId : string) (now : float)
| ClearAllFormStates (now : float)
| GetFullState
| ResetState
| GetStateHistory
| ClearStateHistory
| IsAnyDataLoading
| HasDataForTab (tabName : string)
| GetDataCounts
| BatchUpdate (updates : list (string * Value * float)).

(** The values a call passes in. *)
Definition arguments (a : Action) : list Value :=
  match a with
  | SetOverviewData data | SetIncomeData data | SetExpenseData data
  | SetMileageData data | SetUtilityData data | SetHomeOfficeData data
  | SetTaxSettingsData data | SetTaxPaymentsData data | SetSavingsGoalsData data => [data]
  | AddNotification notification _ => [notification]
  | SetFormState _ formState _ => [formState]
  | BatchUpdate updates => map (fun u => snd (fst u)) updates
  | _ => []
  end.

Definition op_arguments (op : Op) : list Value :=
  match op with
  | OpSet _ value _ => [value]
  | OpSetNested _ value => [value]
  | _ => []
  end.

Section Sessions.

Context {env : Environment}.

(** An action as a call: what it returns is dropped. *)
Definition perform (a : Action) : M unit :=
  match a with
  | SwitchTab tabName now => switchTab tabName now
  | GetCurrentTab => getCurrentTab ;; ret tt
  | SelectRecord type id now now' => selectRecord type id now now'
  | ClearSelectedRecord now now' => clearSelectedRecord now now'
  | GetSelectedRecord => getSelectedRecord ;; ret tt
  | SetHomeOfficeMethod method now => setHomeOfficeMethod method now
  | GetHomeOfficeMethod => getHomeOfficeMethod ;; ret tt
  | ShowModal modalId now => showModal modalId now
  | HideModal modalId now => hideModal modalId now
  | IsModalOpen modalId => isModalOpen modalId ;; ret tt
  | HideAllModals now => hideAllModals now
  | SetLoading isLoading now => setLoading isLoading now
  | IsLoading => isLoading ;; ret tt
  | SetOverviewData data => setOverviewData data
  | GetOverviewData => getOverviewData ;; ret tt
  | SetIncomeData data => setIncomeData data
  | GetIncomeData => getIncomeData ;; ret tt
  | SetExpenseData data => setExpenseData data
  | GetExpenseData => getExpenseData ;; ret tt
  | SetMileageData data => setMileageData data
  | GetMileageData => getMileageData ;; ret tt
  | SetUtilityData data => setUtilityData data
  | GetUtilityData => getUtilityData ;; ret tt
  | SetHomeOfficeData data => setHomeOfficeData data
  | GetHomeOfficeData => getHomeOfficeData ;; ret tt
  | SetTaxSettingsData data => setTaxSettingsData data
  | GetTaxSettingsData => getTaxSettingsData ;; ret tt
  | SetTaxPaymentsData data => setTaxPaymentsData data
  | GetTaxPaymentsData => getTaxPaymentsData ;; ret tt
  | SetSavingsGoalsData data => setSavingsGoalsData data
  | GetSavingsGoalsData => getSavingsGoalsData ;; ret tt
  | ClearAllData => clearAllData
  | AddNotification notification now => addNotification notification now
  | RemoveNotification index now => removeNotification index now
  | ClearNotifications now => clearNotifications now
  | GetNotifications => getNotifications ;; ret tt
  | SetFormState formId formState now => setFormState formId formState now
  | GetFormState formId => getFormState formId ;; ret tt
  | ClearFormState formId now => clearFormState formId now
  | ClearAllFormStates now => clearAllFormStates now
  | GetFullState => getFullState ;; ret tt
  | ResetState => resetState
  | GetStateHistory => getStateHistory ;; ret tt
  | ClearStateHistory => clearStateHistory
  | IsAnyDataLoading => isAnyDataLoading ;; ret tt
  | HasDataForTab tabName => hasDataForTab tabName ;; ret tt
  | GetDataCounts => getDataCounts ;; ret tt
  | BatchUpdate updates => batchUpdate updates
  end.

(** A call on the manager itself, with what it returns dropped. *)
Definition call (op : Op) : M unit :=
  match op with
  | OpSet k value now => set k value now
  | OpSetNested path value => setNested path value
  | OpSubscribe k listener => subscribe k listener
  | OpUnsubscribe k listener => unsubscribe k listener
  | OpReset => reset
  | OpClearHistory => clearHistory
  end.

(** A session: calls on the manager and on the actions, in any order.  A
    call that raises ends itself only; the session goes on. *)
Definition step (c : Op + Action) : M unit :=
  match c with
  | inl op => call op
  | inr a => perform a
  end.

Definition run_session (calls : list (Op + Action)) (w : World) : World :=
  fold_left (fun w c => snd (step c w)) calls w.

End Sessions.

(** Every value the calls pass in is a primitive or a structure of the
    caller's own. *)
Definition passes_own_values (calls : list (Op + Action)) : Prop :=
  Forall (fun c =>
    Forall (fun v => outside v = true)
           (match c with inl op => op_arguments op | inr a => arguments a end)) calls.

(** A computation that never lets a listener's exception out and keeps the
    history log within its bound. *)
Definition careful {A} (m : M A) : Prop :=
  contains_listener_errors m /\ bounded m.

(** A session on the running instance. *)
Definition session : list (Op + Action) :=
  [ inr (ShowModal "record" 1%float);
    inl (OpSubscribe "activeTab" 1);
    inr (SwitchTab "income" 2%float);
    inl (OpSetNested "data.overview.totals.net" (VNum 5));
    inr (SelectRecord "income" 3%float 3%float 4%float);
    inr (AddNotification (VStr "saved") 5%float);
    inr (BatchUpdate [ ("isLoading", VBool true, 6%float);
                       ("data.income", VNull, 7%float) ]) ].


(** The cells of the literal of [clearAllData], allocated from [n] on. *)
Definition empty_data_cells (n : nat) : Heap :=
  [ OArray []; OArray []; OArray []; OArray []; OArray []; OArray [];
    OObject [ ("income", VRef n); ("expenses", VRef (n + 1));
              ("mileage", VRef (n + 2)); ("utilities", VRef (n + 3));
              ("taxPayments", VRef (n + 4)); ("savingsGoals", VRef (n + 5)) ] ].

Section Storable.

Context {env : Environment}.



End Storable.



(** ** Formatters and validators (utils/formatters, utils/validators)

    Strings are sequences of code units below 256; a length or an index
    given as a [number] is an integer here. *)

(** White space as [trim] and [\s] see it. *)
Definition is_space (c : ascii) : bool :=
  let n := nat_of_ascii c in
  ((9 <=? n)%nat && (n <=? 13)%nat) || (n =? 32)%nat || (n =? 160)%nat.

Fixpoint trim_start (s : string) : string :=
  match s with
  | EmptyString => EmptyString
  | String c rest => if is_space c then trim_start rest else s
  end.

(** Without its trailing white space. *)
Fixpoint trim_end (s : string) : string :=
  match s with
  | EmptyString => EmptyString
  | String c rest =>
      match trim_end rest with
      | EmptyString => if is_space c then EmptyString else String c EmptyString
      | kept => String c kept
      end
  end.

(** [s.trim()]. *)
Definition trim (s : string) : string := trim_end (trim_start s).

(** [s.substring(start, end)]: both ends are brought into the string and
    put in order. *)
Definition substring (s : string) (start end_ : Z) : string :=
  let len := Z.of_nat (String.length s) in
  let a := Z.min (Z.max start 0) len in
  let b := Z.min (Z.max end_ 0) len in
  String.substring (Z.to_nat (Z.min a b)) (Z.to_nat (Z.max a b - Z.min a b)) s.

(** [s.replace(/(class)/g, replacement)] for a class of single characters:
    every character of the class is replaced by what [replacement] makes of
    it. *)
Fixpoint replace_each (class : ascii -> bool) (replacement : ascii -> string) (s : string)
  : string :=
  match s with
  | EmptyString => EmptyString
  | String c rest =>
      ((if class c then replacement c else String c EmptyString)
       ++ replace_each class replacement rest)%string
  end.

Definition is_upper (c : ascii) : bool :=
  let n := nat_of_ascii c in (65 <=? n)%nat && (n <=? 90)%nat.





(** [s.replace(pattern, replacement)] with a string pattern: the first
    occurrence only. *)
Fixpoint replace_first (pattern replacement s : string) : string :=
  if String.prefix pattern s
  then (replacement ++ String.substring (String.length pattern)
                         (String.length s - String.length pattern) s)%string
  else match s with
       | EmptyString => EmptyString
       | String c rest => String c (replace_first pattern replacement rest)
       end.


(** ** Regular expressions

    As much of them as [validateEmail] needs: classes of characters,
    sequence, repetition.  A match is decided with derivatives. *)

Inductive regex : Type :=
| Nothing
| Empty
| Chars (class : ascii -> bool)
| Alt (a b : regex)
| Seq (a b : regex)
| Star (a : regex).

(** [a+]. *)
Definition Plus (a : regex) : regex := Seq a (Star a).

Fixpoint nullable (r : regex) : bool :=
  match r with
  | Nothing => false
  | Empty => true
  | Chars _ => false
  | Alt a b => nullable a || nullable b
  | Seq a b => nullable a && nullable b
  | Star _ => true
  end.

Fixpoint derive (c : ascii) (r : regex) : regex :=
  match r with
  | Nothing => Nothing
  | Empty => Nothing
  | Chars class => if class c then Empty else Nothing
  | Alt a b => Alt (derive c a) (derive c b)
  | Seq a b =>
      if nullable a then Alt (Seq (derive c a) b) (derive c b)
      else Seq (derive c a) b
  | Star a => Seq (derive c a) (Star a)
  end.

(** [/^r$/.test(s)]. *)
Fixpoint test (r : regex) (s : string) : bool :=
  match s with
  | EmptyString => nullable r
  | String c rest => test (derive c r) rest
  end.

(** The strings a regular expression stands for. *)
Inductive lang : regex -> string -> Prop :=
| lang_empty : lang Empty ""
| lang_chars (class : ascii -> bool) (c : ascii) :
    class c = true -> lang (Chars class) (String c "")
| lang_alt_l (a b : regex) (s : string) : lang a s -> lang (Alt a b) s
| lang_alt_r (a b : regex) (s : string) : lang b s -> lang (Alt a b) s
| lang_seq (a b : regex) (s t : string) :
    lang a s -> lang b t -> lang (Seq a b) (s ++ t)%string
| lang_star_nil (a : regex) : lang (Star a) ""
| lang_star_more (a : regex) (s t : string) :
    lang a s -> lang (Star a) t -> lang (Star a) (s ++ t)%string.

(** [[^\s@]]. *)
Definition no_space_no_at (c : ascii) : bool :=
  negb (is_space c) && negb (Ascii.eqb c "@"%char).

(** [/^[^\s@]+@[^\s@]+\.[^\s@]+$/]. *)
Definition emailRegex : regex :=
  Seq (Plus (Chars no_space_no_at))
      (Seq (Chars (Ascii.eqb "@"%char))
           (Seq (Plus (Chars no_space_no_at))
                (Seq (Chars (Ascii.eqb "."%char))
                     (Plus (Chars no_space_no_at))))).

Module Formatters.

(** The replacement ['$1'] stands for the character that was matched. *)
Definition serviceType (serviceType : string) : string :=
  trim (replace_each is_upper (fun matched => String matched EmptyString) serviceType).


Definition truncate (text : string) (maxLength : Z) : string :=
  if (Z.of_nat (String.length text) <=? maxLength)%Z then text
  else (substring text 0 (maxLength - 3) ++ "...")%string.

End Formatters.

(** The double nearest to 0.1. *)
Definition tenth : float := 0x1.999999999999ap-4%float.

Record ValidationResult : Type := mkResult {
  isValid : bool;
  message : option string;
}.

Module Validators.

Section Validators.

(** [Formatters.currency], which rests on [Intl.NumberFormat], and the
    conversion of a number to a string in a template. *)
Variable currency : float -> string.
Variable number_to_string : float -> string.

Definition validateCurrency (amount : float) (min : float) (max : option float)
  : ValidationResult :=
  if negb (PrimFloat.eqb amount amount) then
    mkResult false (Some "Amount must be a valid number")
  else if PrimFloat.ltb amount min then
    mkResult false (Some ("Amount must be at least " ++ currency min)%string)
  else match max with
       | Some max =>
           if PrimFloat.ltb max amount then
             mkResult false (Some ("Amount cannot exceed " ++ currency max)%string)
           else mkResult true None
       | None => mkResult true None
       end.

Definition validatePercentage (percentage : float) (min max : float) : ValidationResult :=
  if PrimFloat.ltb percentage min then
    mkResult false
      (Some ("Percentage must be at least " ++ number_to_string min ++ "%")%string)
  else if PrimFloat.ltb max percentage then
    mkResult false
      (Some ("Percentage cannot exceed " ++ number_to_string max ++ "%")%string)
  else mkResult true None.

Definition validateRequired (value : string) (fieldName : string) : ValidationResult :=
  if String.eqb value "" || (String.length (trim value) =? 0)%nat then
    mkResult false (Some (fieldName ++ " is required")%string)
  else mkResult true None.

Definition validateEmail (email : string) : ValidationResult :=
  if String.eqb email "" then mkResult false (Some "Email is required")
  else if negb (test emailRegex email) then mkResult false (Some "Invalid email format")
  else mkResult true None.

Definition validateBusinessPurpose (purpose : string) : ValidationResult :=
  let required := validateRequired purpose "Business purpose" in
  if negb (isValid required) then required
  else if (String.length purpose <? 10)%nat then
    mkResult false
      (Some "Business purpose must be at least 10 characters for IRS compliance")
  else mkResult true None.

Definition validateMileage (miles : float) : ValidationResult :=
  let currency := validateCurrency miles tenth (Some 10000%float) in
  if negb (isValid currency) then
    mkResult false
      (Some (match message currency with
             | Some m =>
                 let replaced := replace_first "Amount" "Miles" m in
                 if String.eqb replaced "" then "Invalid mileage" else replaced
             | None => "Invalid mileage"
             end))
  else mkResult true None.

End Validators.

End Validators.


(** Whether a string is made of white space only. *)
Fixpoint blank (s : string) : bool :=
  match s with
  | EmptyString => true
  | String c rest => is_space c && blank rest
  end.

(** A string without white space and without [@]. *)
Fixpoint plain (s : string) : bool :=
  match s with
  | EmptyString => true
  | String c rest => no_space_no_at c && plain rest
  end.
(** ** The monad *)

Lemma world_eta (w : World) :
  mkWorld (heap w) (state w) (listeners w) (history w) (trace w) = w.
Proof. by destruct w. Qed.

Lemma emits_nil (w : World) : emits [] w = w.
Proof. destruct w; unfold emits; simpl. by rewrite app_nil_r. Qed.

Lemma emits_emits (xs ys : list Event) (w : World) :
  emits ys (emits xs w) = emits (xs ++ ys) w.
Proof. unfold emits; simpl. by rewrite app_assoc. Qed.

Section Notify.
Context {env : Environment}.

Lemma forEach_listeners (k : string) (nv ov : Value) (ls : ListenerSet) (w : World) :
  forEach ls (fun listener =>
    try_catch (invoke listener nv ov k)
              (fun error => modify (emit (Errored k error)))) w
  = (Normal tt, emits (notify_events k nv ov ls) w).
Proof.
  revert w. induction ls as [|l ls IH]; intros w; simpl.
  - by rewrite emits_nil.
  - unfold bind at 1, try_catch, invoke.
    destruct (listener_throws l nv ov k); simpl.
    + unfold modify at 1. rewrite IH. unfold emit.
      by rewrite !emits_emits.
    + rewrite IH. unfold emit. by rewrite emits_emits.
Qed.

Lemma notifyListeners_run (k : string) (nv ov : Value) (w : World) :
  notifyListeners k nv ov w
  = (Normal tt, emits (notify_events k nv ov (registered k w)) w).
Proof.
  unfold notifyListeners, bind, gets, registered.
  destruct (map_get k (listeners w)) as [ls|]; simpl.
  - apply forEach_listeners.
  - unfold ret. by rewrite emits_nil.
Qed.

End Notify.
(** ** The registry *)

Section MapLemmas.
Context {V : Type}.
Implicit Types (m : list (string * V)) (k : string).

Lemma map_get_set_eq k (v : V) m : map_get k (map_set k v m) = Some v.
Proof.
  induction m as [|[k0 v0] m IH]; simpl.
  - by rewrite String.eqb_refl.
  - destruct (String.eqb k0 k) eqn:E; simpl; rewrite E; auto.
Qed.

Lemma map_get_set_ne k k' (v : V) m :
  k <> k' -> map_get k' (map_set k v m) = map_get k' m.
Proof.
  intros Hne. induction m as [|[k0 v0] m IH]; simpl.
  - destruct (String.eqb k k') eqn:E; auto.
    apply String.eqb_eq in E. contradiction.
  - destruct (String.eqb k0 k) eqn:E; simpl.
    + apply String.eqb_eq in E. subst k0.
      destruct (String.eqb k k') eqn:E'; auto.
      apply String.eqb_eq in E'. contradiction.
    + by rewrite IH.
Qed.

Lemma map_get_delete_eq k m : map_get k (map_delete k m) = None.
Proof.
  induction m as [|[k0 v0] m IH]; simpl; auto.
  destruct (String.eqb k0 k) eqn:E; simpl; auto. by rewrite E.
Qed.

Lemma map_get_delete_ne k k' m :
  k <> k' -> map_get k' (map_delete k m) = map_get k' m.
Proof.
  intros Hne. induction m as [|[k0 v0] m IH]; simpl; auto.
  destruct (String.eqb k0 k) eqn:E; simpl.
  - apply String.eqb_eq in E. subst k0.
    destruct (String.eqb k k') eqn:E'; auto.
    apply String.eqb_eq in E'. contradiction.
  - by rewrite IH.
Qed.

Lemma map_delete_absent k m : map_get k m = None -> map_delete k m = m.
Proof.
  induction m as [|[k0 v0] m IH]; simpl; auto.
  destruct (String.eqb k0 k); [discriminate|]. intros H. by rewrite IH.
Qed.

Lemma map_set_keys k (v : V) m :
  map_get k m <> None -> map fst (map_set k v m) = map fst m.
Proof.
  induction m as [|[k0 v0] m IH]; simpl; [congruence|].
  destruct (String.eqb k0 k); simpl; auto. intros H. by rewrite IH.
Qed.

Lemma map_set_keys_new k (v : V) m :
  map_get k m = None -> map fst (map_set k v m) = map fst m ++ [k].
Proof.
  induction m as [|[k0 v0] m IH]; simpl; auto.
  destruct (String.eqb k0 k); simpl; [discriminate|]. intros H. by rewrite IH.
Qed.

Lemma map_get_None_keys k m : map_get k m = None -> ~ In k (map fst m).
Proof.
  induction m as [|[k0 v0] m IH]; simpl; auto.
  destruct (String.eqb k0 k) eqn:E; [discriminate|].
  apply String.eqb_neq in E. intros H [->|Hin]; [congruence | by apply IH].
Qed.

Lemma map_delete_keys_incl k m x : In x (map fst (map_delete k m)) -> In x (map fst m).
Proof.
  induction m as [|[k0 v0] m IH]; simpl; auto.
  destruct (String.eqb k0 k); simpl; intuition.
Qed.

Lemma map_delete_NoDup k m : NoDup (map fst m) -> NoDup (map fst (map_delete k m)).
Proof.
  induction m as [|[k0 v0] m IH]; simpl; auto.
  rewrite NoDup_cons. intros [Hn Hd].
  destruct (String.eqb k0 k); simpl; auto.
  apply NoDup_cons. split; auto.
  intros Hin. apply Hn. apply list_elem_of_In. apply list_elem_of_In in Hin.
  eapply map_delete_keys_incl; eauto.
Qed.

Lemma map_set_Forall (P : string * V -> Prop) k (v : V) m :
  P (k, v) -> Forall P m -> Forall P (map_set k v m).
Proof.
  intros Hk Hm. induction Hm as [|[k0 v0] m H0 Hm IH]; simpl.
  - by constructor.
  - destruct (String.eqb k0 k) eqn:E.
    + apply String.eqb_eq in E. subst k0. by constructor.
    + by constructor.
Qed.

Lemma map_delete_Forall (P : string * V -> Prop) k m :
  Forall P m -> Forall P (map_delete k m).
Proof.
  intros Hm. induction Hm as [|[k0 v0] m H0 Hm IH]; simpl; auto.
  destruct (String.eqb k0 k); auto.
Qed.

Lemma map_get_Forall (P : string * V -> Prop) k (v : V) m :
  Forall P m -> map_get k m = Some v -> P (k, v).
Proof.
  intros Hm. induction Hm as [|[k0 v0] m H0 Hm IH]; simpl; [discriminate|].
  destruct (String.eqb k0 k) eqn:E; auto.
  apply String.eqb_eq in E. subst k0. by intros [= ->].
Qed.

End MapLemmas.

Lemma set_has_In (x : Listener) (s : ListenerSet) : set_has x s = true <-> In x s.
Proof.
  induction s as [|y s IH]; simpl; [split; [discriminate | tauto]|].
  rewrite orb_true_iff, IH, Nat.eqb_eq. tauto.
Qed.

Lemma set_delete_In (x l : Listener) (s : ListenerSet) :
  In x (set_delete l s) <-> In x s /\ x <> l.
Proof.
  induction s as [|y s IH]; simpl; [tauto|].
  destruct (Nat.eqb y l) eqn:E.
  - apply Nat.eqb_eq in E. subst y. rewrite IH. intuition congruence.
  - apply Nat.eqb_neq in E. simpl. rewrite IH. intuition congruence.
Qed.

Lemma set_delete_absent (l : Listener) (s : ListenerSet) :
  ~ In l s -> set_delete l s = s.
Proof.
  induction s as [|y s IH]; simpl; auto.
  intros H. destruct (Nat.eqb y l) eqn:E.
  - apply Nat.eqb_eq in E. tauto.
  - rewrite IH; tauto.
Qed.

Lemma set_delete_idem (l : Listener) (s : ListenerSet) :
  set_delete l (set_delete l s) = set_delete l s.
Proof. apply set_delete_absent. rewrite set_delete_In. tauto. Qed.

Lemma set_delete_NoDup (l : Listener) (s : ListenerSet) :
  NoDup s -> NoDup (set_delete l s).
Proof.
  induction 1 as [|y s Hn Hd IH]; simpl; [constructor|].
  destruct (Nat.eqb y l); auto. constructor; auto.
  rewrite list_elem_of_In, set_delete_In. rewrite list_elem_of_In in Hn. tauto.
Qed.


Lemma set_add_NoDup (l : Listener) (s : ListenerSet) :
  NoDup s -> NoDup (set_add l s).
Proof.
  intros Hd. unfold set_add. destruct (set_has l s) eqn:E; auto.
  apply NoDup_app. split; [auto|]. split; [|apply NoDup_singleton].
  intros x Hx Hx'. apply list_elem_of_In in Hx. apply list_elem_of_In in Hx'.
  destruct Hx' as [<-|[]].
  apply set_has_In in Hx. congruence.
Qed.


Lemma set_add_nonempty (l : Listener) (s : ListenerSet) : set_add l s <> [].
Proof.
  unfold set_add. destruct (set_has l s) eqn:E.
  - destruct s; [discriminate | congruence].
  - destruct s; discriminate.
Qed.
Section MapLemmas2.
Context {V : Type}.
Implicit Types (m : list (string * V)) (k : string).

Lemma map_set_set k (v v' : V) m : map_set k v (map_set k v' m) = map_set k v m.
Proof.
  induction m as [|[k0 v0] m IH]; simpl.
  - by rewrite String.eqb_refl.
  - destruct (String.eqb k0 k) eqn:E; simpl; rewrite E; auto. by rewrite IH.
Qed.

Lemma map_set_same k (v : V) m : map_get k m = Some v -> map_set k v m = m.
Proof.
  induction m as [|[k0 v0] m IH]; simpl; [discriminate|].
  destruct (String.eqb k0 k) eqn:E.
  - by intros [= ->].
  - intros H. by rewrite IH.
Qed.

Lemma map_delete_set k (v : V) m : map_delete k (map_set k v m) = map_delete k m.
Proof.
  induction m as [|[k0 v0] m IH]; simpl.
  - by rewrite String.eqb_refl.
  - destruct (String.eqb k0 k) eqn:E; simpl; rewrite E; auto. by rewrite IH.
Qed.

End MapLemmas2.

Lemma with_listeners_same (w : World) : with_listeners (listeners w) w = w.
Proof. by destruct w. Qed.

(** The registry after the closure returned by [subscribe k l] has run. *)
Lemma unsubscribe_run (k : string) (l : Listener) (w : World) :
  unsubscribe k l w =
  (Normal tt,
   with_listeners
     (match map_get k (listeners w) with
      | Some s =>
          match set_delete l s with
          | [] => map_delete k (listeners w)
          | s' => map_set k s' (listeners w)
          end
      | None => listeners w
      end) w).
Proof.
  unfold unsubscribe, bind, gets.
  destruct (map_get k (listeners w)) as [s|] eqn:E; simpl.
  - unfold modify. destruct (set_delete l s) as [|x s'] eqn:Es; simpl.
    + unfold with_listeners; simpl. by rewrite map_delete_set.
    + by unfold ret.
  - unfold ret. by rewrite with_listeners_same.
Qed.

Lemma subscribe_run (k : string) (l : Listener) (w : World) :
  subscribe k l w =
  (Normal tt,
   with_listeners (map_set k (set_add l (registered k w)) (listeners w)) w).
Proof.
  unfold subscribe, bind, gets, map_has, registered.
  destruct (map_get k (listeners w)) as [s|] eqn:E; simpl.
  - unfold ret, modify. by rewrite E.
  - unfold modify; simpl. rewrite map_get_set_eq.
    unfold with_listeners; simpl. by rewrite map_set_set.
Qed.

Lemma well_formed_subscribe (k : string) (l : Listener) (m : Registry.t) :
  well_formed m ->
  well_formed (map_set k (set_add l (default [] (map_get k m))) m).
Proof.
  intros [Hk Hs]. split.
  - destruct (map_get k m) eqn:E.
    + rewrite map_set_keys; [done | congruence].
    + rewrite map_set_keys_new by done.
      apply NoDup_app. split; [done|]. split; [|apply NoDup_singleton].
      intros x Hx Hx'. apply list_elem_of_In in Hx. apply list_elem_of_In in Hx'.
      destruct Hx' as [<-|[]]. by apply map_get_None_keys in E.
  - apply map_set_Forall; [|done]. simpl. split.
    + apply set_add_NoDup. destruct (map_get k m) eqn:E; simpl; [|constructor].
      by destruct (map_get_Forall _ _ _ _ Hs E).
    + apply set_add_nonempty.
Qed.

Lemma well_formed_unsubscribe (k : string) (l : Listener) (m : Registry.t) :
  well_formed m ->
  well_formed
    (match map_get k m with
     | Some s =>
         match set_delete l s with
         | [] => map_delete k m
         | s' => map_set k s' m
         end
     | None => m
     end).
Proof.
  intros [Hk Hs]. destruct (map_get k m) as [s|] eqn:E; [|by split].
  destruct (set_delete l s) as [|x s'] eqn:Es.
  - split; [by apply map_delete_NoDup | by apply map_delete_Forall].
  - split.
    + rewrite map_set_keys; [done | congruence].
    + apply map_set_Forall; [|done]. simpl. split; [|done].
      rewrite <- Es. apply set_delete_NoDup.
      by destruct (map_get_Forall _ _ _ _ Hs E).
Qed.

(** Counting invocations in what a notification emits. *)
Section Counting.
Context {env : Environment}.

Lemma invocations_app (l : Listener) (k : string) (xs ys : list Event) :
  invocations l k (xs ++ ys) = invocations l k xs + invocations l k ys.
Proof. unfold invocations. by rewrite List.filter_app, length_app. Qed.

Lemma invocations_notify (l : Listener) (k k' : string) (nv ov : Value) (ls : ListenerSet) :
  invocations l k (notify_events k' nv ov ls) =
  if String.eqb k' k then count_occ Nat.eq_dec ls l else 0.
Proof.
  induction ls as [|x ls IH]; simpl.
  - by destruct (String.eqb k' k).
  - change (Invoked x nv ov k' :: ?a ++ ?b) with ([Invoked x nv ov k'] ++ a ++ b).
    rewrite !invocations_app, IH.
    unfold invocations; simpl.
    destruct (listener_throws x nv ov k'); simpl;
      destruct (String.eqb k' k); destruct (Nat.eq_dec x l) as [->|Hne]; simpl;
      rewrite ?Nat.eqb_refl, ?andb_false_r; simpl; try done;
      apply Nat.eqb_neq in Hne; by rewrite Hne.
Qed.



End Counting.

(** The closure returned by [subscribe], fact by fact. *)
Section UnsubscribeFacts.
Context {env : Environment}.

Lemma unsubscribe_registered (k : string) (l : Listener) (w : World) :
  registered k (snd (unsubscribe k l w)) = set_delete l (registered k w).
Proof.
  rewrite unsubscribe_run. unfold registered. cbn [snd listeners with_listeners].
  destruct (map_get k (listeners w)) as [s|] eqn:E; simpl.
  - destruct (set_delete l s) as [|x s'] eqn:Es.
    + by rewrite map_get_delete_eq.
    + by rewrite map_get_set_eq.
  - by rewrite E.
Qed.

Lemma unsubscribe_other_keys (k k' : string) (l : Listener) (w : World) :
  k' <> k ->
  map_get k' (listeners (snd (unsubscribe k l w))) = map_get k' (listeners w).
Proof.
  intros Hne. rewrite unsubscribe_run. cbn [snd listeners with_listeners].
  destruct (map_get k (listeners w)) as [s|] eqn:E; [|done].
  destruct (set_delete l s); [by apply map_get_delete_ne | by apply map_get_set_ne].
Qed.

Lemma unsubscribe_pruned (k : string) (l : Listener) (w : World) :
  map_get k (listeners (snd (unsubscribe k l w))) = None <->
  registered k (snd (unsubscribe k l w)) = [].
Proof.
  rewrite unsubscribe_run. unfold registered. cbn [snd listeners with_listeners].
  destruct (map_get k (listeners w)) as [s|] eqn:E.
  - destruct (set_delete l s) as [|x s'] eqn:Es.
    + by rewrite map_get_delete_eq.
    + rewrite map_get_set_eq. simpl. split; done.
  - by rewrite E.
Qed.

Lemma unsubscribe_well_formed (k : string) (l : Listener) (w : World) :
  well_formed (listeners w) -> well_formed (listeners (snd (unsubscribe k l w))).
Proof.
  intros Hwf. rewrite unsubscribe_run. cbn [snd listeners with_listeners].
  by apply well_formed_unsubscribe.
Qed.

Lemma unsubscribe_again (k : string) (l : Listener) (w : World) :
  let w' := snd (unsubscribe k l w) in
  unsubscribe k l w' = (Normal tt, w').
Proof.
  cbv zeta.
  pose proof (unsubscribe_registered k l w) as Hreg.
  pose proof (unsubscribe_pruned k l w) as Hnone.
  set (w' := snd (unsubscribe k l w)) in *.
  rewrite (unsubscribe_run k l w'). f_equal.
  destruct (map_get k (listeners w')) as [s'|] eqn:E'; [|by apply with_listeners_same].
  assert (Hs' : registered k w' = s') by (unfold registered; by rewrite E').
  assert (Hidem : set_delete l s' = s')
    by (rewrite <- Hs', Hreg; apply set_delete_idem).
  rewrite Hidem. destruct s' as [|x s'].
  - destruct Hnone as [_ Hn]. specialize (Hn Hs'). congruence.
  - rewrite (map_set_same _ _ _ E'). apply with_listeners_same.
Qed.

Lemma unsubscribe_trace (k : string) (l : Listener) (w : World) :
  trace (snd (unsubscribe k l w)) = trace w.
Proof. by rewrite unsubscribe_run. Qed.

(** Once a listener is off a key, no notification calls it for that key. *)
Lemma notify_skips_absent (k k' : string) (l : Listener) (nv ov : Value) (w : World) :
  ~ In l (registered k w) ->
  invocations l k (trace (snd (notifyListeners k' nv ov w))) = invocations l k (trace w).
Proof.
  intros Hnot. rewrite notifyListeners_run. cbn [snd trace emits].
  rewrite invocations_app, invocations_notify.
  destruct (String.eqb k' k) eqn:Ek; [|lia].
  apply String.eqb_eq in Ek. subst k'.
  apply (count_occ_not_In Nat.eq_dec) in Hnot. rewrite Hnot. lia.
Qed.

End UnsubscribeFacts.
(** ** Views of the heap and deep clones *)

Lemma map_option_weaken {A B} (f g : A -> option B) (xs : list A) (ys : list B) :
  (forall x y, In x xs -> f x = Some y -> g x = Some y) ->
  map_option f xs = Some ys -> map_option g xs = Some ys.
Proof.
  revert ys. induction xs as [|x xs IH]; intros ys Hfg; simpl; [done|].
  destruct (f x) as [y|] eqn:Ef; [|discriminate].
  destruct (map_option f xs) as [ys'|] eqn:Em; [|discriminate].
  intros [= <-].
  rewrite (Hfg x y) by (simpl; auto).
  rewrite (IH ys'); [done | | done].
  intros x' y' Hin. apply Hfg. simpl; auto.
Qed.

Lemma map_option_length {A B} (f : A -> option B) (xs : list A) (ys : list B) :
  map_option f xs = Some ys -> List.length ys = List.length xs.
Proof.
  revert ys. induction xs as [|x xs IH]; intros ys; simpl.
  - by intros [= <-].
  - destruct (f x); [|discriminate]. destruct (map_option f xs); [|discriminate].
    intros [= <-]. simpl. by rewrite (IH l).
Qed.

(** Allocation never disturbs what was already there. *)
Lemma view_app (d : nat) (h extra : Heap) (v : Value) (r : Tree * list loc) :
  view d h v = Some r -> view d (h ++ extra) v = Some r.
Proof.
  revert v r. induction d as [|d IH]; intros v r; simpl; [done|].
  destruct v as [| | | | |l]; try done.
  destruct (h !! l) as [o|] eqn:El; [|done].
  rewrite (lookup_app_l_Some _ _ _ _ El).
  destruct o as [props|items|t]; [| |done].
  - destruct (map_option (view d h) (map snd props)) as [parts|] eqn:Em; [|done].
    by rewrite (map_option_weaken _ (view d (h ++ extra)) _ _ (fun x y _ => IH x y) Em).
  - destruct (map_option (view d h) items) as [parts|] eqn:Em; [|done].
    by rewrite (map_option_weaken _ (view d (h ++ extra)) _ _ (fun x y _ => IH x y) Em).
Qed.

Lemma snapshot_app (d : nat) (h extra : Heap) (v : Value) (t : Tree) :
  snapshot d h v = Some t -> snapshot d (h ++ extra) v = Some t.
Proof.
  unfold snapshot. destruct (view d h v) as [r|] eqn:E; [|done].
  by rewrite (view_app _ _ extra _ _ E).
Qed.



Lemma map_snd_combine {A B} (xs : list A) (ys : list B) :
  List.length xs = List.length ys -> map snd (combine xs ys) = ys.
Proof.
  revert ys. induction xs as [|x xs IH]; intros [|y ys]; simpl; try done.
  intros [= H]. by rewrite IH.
Qed.

Lemma lookup_alloc (h extra : Heap) (o : HObj) :
  (h ++ o :: extra) !! List.length h = Some o.
Proof. by apply list_lookup_middle. Qed.


Lemma map_heap_length (f : Value -> Heap -> Completion (Value * Heap))
    (vs vs' : list Value) (h h' : Heap) :
  map_heap f vs h = Normal (vs', h') -> List.length vs' = List.length vs.
Proof.
  revert vs' h h'. induction vs as [|v vs IH]; intros vs' h h'; simpl.
  - by intros [= <- _].
  - destruct (f v h) as [[v1 h1]|]; [|done].
    destruct (map_heap f vs h1) as [[vs1 h2]|] eqn:E; [|done].
    intros [= <- _]. simpl. by rewrite (IH _ _ _ E).
Qed.



(** What [deepClone] and [deepEqual] can raise. *)
Lemma map_heap_abrupt (f : Value -> Heap -> Completion (Value * Heap))
    (P : Exn -> Prop) (vs : list Value) (h : Heap) (e : Exn) :
  (forall v h e, f v h = Abrupt e -> P e) ->
  map_heap f vs h = Abrupt e -> P e.
Proof.
  intros Hf. revert h. induction vs as [|v vs IH]; intros h; simpl; [done|].
  destruct (f v h) as [[v1 h1]|e1] eqn:E1.
  - destruct (map_heap f vs h1) as [[vs1 h2]|e2] eqn:E2; [done|].
    intros [= <-]. by eapply IH.
  - intros [= <-]. by eapply Hf.
Qed.

Lemma deepClone_rec_abrupt (d : nat) (v : Value) (h : Heap) (e : Exn) :
  deepClone_rec d v h = Abrupt e -> e = RangeError \/ e = Unmodelled.
Proof.
  revert v h e. induction d as [|d IH]; intros v h e; simpl.
  - intros [= <-]. by left.
  - destruct v as [| | | | |l]; try done.
    destruct (h !! l) as [[props|items|time]|].
    + destruct (map_heap (deepClone_rec d) (map snd props) h) as [[vals h1]|e1] eqn:E; [done|].
      intros [= <-]. eapply (map_heap_abrupt _ (fun e => e = RangeError \/ e = Unmodelled)); eauto.
    + destruct (map_heap (deepClone_rec d) items h) as [[vals h1]|e1] eqn:E; [done|].
      intros [= <-]. eapply (map_heap_abrupt _ (fun e => e = RangeError \/ e = Unmodelled)); eauto.
    + done.
    + intros [= <-]. by right.
Qed.

Lemma all_equal_abrupt (eq : Value -> Value -> Completion bool)
    (xs ys : list Value) (e : Exn) :
  (forall x y e, eq x y = Abrupt e -> e = RangeError) ->
  all_equal eq xs ys = Abrupt e -> e = RangeError.
Proof.
  intros Heq. revert ys. induction xs as [|x xs IH]; intros [|y ys]; simpl; try done.
  destruct (eq x y) as [[|]|e1] eqn:E; [by apply IH | done |].
  intros [= <-]. by eapply Heq.
Qed.

Lemma deepEqual_rec_abrupt (d : nat) (h : Heap) (a b : Value) (e : Exn) :
  deepEqual_rec d h a b = Abrupt e -> e = RangeError.
Proof.
  revert a b e. induction d as [|d IH]; intros a b e; simpl.
  - by intros [= <-].
  - destruct (strict_eq a b); [done|].
    destruct (is_null a || is_null b); [done|].
    destruct (array_items h a) as [xs|]; [|done].
    destruct (array_items h b) as [ys|]; [|done].
    destruct (negb (Nat.eqb (List.length xs) (List.length ys))); [done|].
    apply all_equal_abrupt. apply IH.
Qed.
(** ** The equality behind [set]'s short-circuit *)




Lemma all_equal_Forall2 (eq : Value -> Value -> Completion bool) (xs ys : list Value) :
  Forall2 (fun x y => eq x y = Normal true) xs ys ->
  all_equal eq xs ys = Normal true.
Proof. induction 1 as [|x y xs ys Hxy _ IH]; simpl; [done|]. by rewrite Hxy. Qed.

Lemma array_items_ref (h : Heap) (v : Value) (xs : list Value) :
  array_items h v = Some xs -> is_null v = false.
Proof. by destruct v. Qed.



Lemma deepEqual_rec_complete (d : nat) (h : Heap) (a b : Value) :
  array_equal h a b -> within_depth d h a = true ->
  deepEqual_rec d h a b = Normal true.
Proof.
  revert a b. induction d as [|d IH]; intros a b Heq; simpl; [done|].
  destruct (strict_eq a b) eqn:Es; [done|].
  inversion Heq as [a' b' Hs | a' b' xs ys Ha Hb Hf]; subst; [congruence|].
  rewrite (array_items_ref _ _ _ Ha), (array_items_ref _ _ _ Hb), Ha, Hb.
  simpl. rewrite (Forall2_length _ _ _ Hf), Nat.eqb_refl. simpl.
  intros Hd. apply all_equal_Forall2.
  clear Ha Hb Heq Es. induction Hf as [|x y xs ys Hxy Hf IHf]; [constructor|].
  simpl in Hd. apply andb_true_iff in Hd as [Hx Hxs].
  constructor; auto.
Qed.





(** ** [set], case by case *)

Lemma prop_lookup_update_eq (k : string) (v : Value) (props : list (string * Value)) :
  prop_lookup k (prop_update k v props) = Some v.
Proof.
  induction props as [|[k0 v0] props IH]; simpl.
  - by rewrite String.eqb_refl.
  - destruct (String.eqb k0 k) eqn:E; simpl; by rewrite E.
Qed.


Lemma is_plain_object (h : Heap) (v : Value) :
  is_plain h v = true -> exists l props, v = VRef l /\ h !! l = Some (OObject props).
Proof.
  destruct v as [| | | | |l]; simpl; try done.
  destruct (h !! l) as [[props| |]|] eqn:E; try done. intros _. by exists l, props.
Qed.

Section SetLemmas.
Context {env : Environment}.


Lemma set_unchanged (k : string) (value stored : Value) (now : float) (w : World) :
  get_prop (heap w) (state w) k = Normal stored ->
  deepEqual_rec stack_limit (heap w) stored value = Normal true ->
  set k value now w = (Normal tt, w).
Proof.
  intros Hg He. unfold set, get, bind, gets, read_prop, deepEqual.
  by rewrite Hg, He.
Qed.






End SetLemmas.
(** ** [setNested]: the walk and the write *)

Lemma split_dot_nonempty (s : string) : split_dot s <> [].
Proof.
  destruct s as [|c s]; simpl; [done|].
  destruct (Ascii.eqb c "."); [done|]. by destruct (split_dot s).
Qed.


Lemma pop_split (l : list string) :
  l <> [] -> exists keys k, l = keys ++ [k].
Proof.
  induction l as [|x l IH]; [done|]. intros _.
  destruct l as [|y l].
  - by exists [], x.
  - destruct IH as (keys & k & E); [done|].
    exists (x :: keys), k. by rewrite E.
Qed.

Lemma walk_length (h : Heap) (obj : Value) (keys : list string) :
  List.length (walk h obj keys) <= S (List.length keys).
Proof.
  revert obj. induction keys as [|k keys IH]; intros obj; simpl; [lia|].
  destruct (truthy (get_prop_opt h obj k)); simpl; [|lia].
  specialize (IH (get_prop_opt h obj k)). lia.
Qed.





Lemma write_prop_run (obj : Value) (k : string) (v : Value) (w : World) (h' : Heap) :
  set_prop (heap w) obj k v = Normal h' ->
  write_prop obj k v w = (Normal tt, with_heap h' w).
Proof. intros H. unfold write_prop. by rewrite H. Qed.


Lemma with_heap_twice (h h' : Heap) (w : World) :
  with_heap h' (with_heap h w) = with_heap h' w.
Proof. done. Qed.

Lemma get_prop_plain (h : Heap) (l : loc) (props : list (string * Value)) (k : string) :
  h !! l = Some (OObject props) ->
  get_prop h (VRef l) k = Normal (default VUndefined (prop_lookup k props)).
Proof. intros H. unfold get_prop. by rewrite H. Qed.





Section Descend.
Context {env : Environment}.


End Descend.
(** ** [reset] *)



Section Reset.
Context {env : Environment}.




End Reset.
(** ** What the operations leave alone *)



Section Footprints.
Context {env : Environment}.

Lemma contained_bind {A B} (m : M A) (f : A -> M B) :
  contains_listener_errors m -> (forall a, contains_listener_errors (f a)) ->
  contains_listener_errors (bind m f).
Proof.
  intros Hm Hf w l. unfold bind. specialize (Hm w l).
  destruct (m w) as [[a|e] w']; simpl in *; [apply Hf|].
  intros [= ->]. by apply Hm.
Qed.

Lemma contained_ret {A} (a : A) : contains_listener_errors (ret a).
Proof. by intros w l. Qed.

Lemma contained_gets {A} (f : World -> A) : contains_listener_errors (gets f).
Proof. by intros w l. Qed.

Lemma contained_modify (f : World -> World) : contains_listener_errors (modify f).
Proof. by intros w l. Qed.

Lemma contained_read_prop (obj : Value) (k : string) :
  contains_listener_errors (read_prop obj k).
Proof.
  intros w l. unfold read_prop, get_prop. simpl.
  destruct obj as [| | | | |l0]; try done.
  by destruct (heap w !! l0) as [[| |]|].
Qed.

Lemma contained_write_prop (obj : Value) (k : string) (v : Value) :
  contains_listener_errors (write_prop obj k v).
Proof.
  intros w l. unfold write_prop, set_prop.
  destruct obj as [| | | | |l0]; try done.
  destruct (heap w !! l0) as [[| |]|]; try done.
  by destruct (parse_index k).
Qed.

Lemma contained_new_object : contains_listener_errors new_object.
Proof. by intros w l. Qed.

Lemma contained_deepClone (v : Value) : contains_listener_errors (deepClone v).
Proof.
  intros w l. unfold deepClone.
  destruct (deepClone_rec stack_limit v (heap w)) as [[v' h']|e] eqn:E; [done|].
  simpl. intros [= ->]. by destruct (deepClone_rec_abrupt _ _ _ _ E).
Qed.

Lemma contained_deepEqual (a b : Value) : contains_listener_errors (deepEqual a b).
Proof.
  intros w l. unfold deepEqual. simpl.
  destruct (deepEqual_rec stack_limit (heap w) a b) as [r|e] eqn:E; [done|].
  intros [= ->]. by apply deepEqual_rec_abrupt in E.
Qed.

Lemma contained_notifyListeners (k : string) (nv ov : Value) :
  contains_listener_errors (notifyListeners k nv ov).
Proof. intros w l. by rewrite notifyListeners_run. Qed.

Lemma contained_forEach {A} (xs : list A) (body : A -> M unit) :
  (forall x, contains_listener_errors (body x)) ->
  contains_listener_errors (forEach xs body).
Proof.
  intros Hb. induction xs as [|x xs IH]; simpl.
  - apply contained_ret.
  - apply contained_bind; auto.
Qed.

Lemma contained_descend (keys : list string) (obj : Value) :
  contains_listener_errors (descend keys obj).
Proof.
  revert obj. induction keys as [|k keys IH]; intros obj; simpl.
  - apply contained_ret.
  - apply contained_bind; [apply contained_read_prop|]. intros next.
    apply contained_bind.
    + destruct (negb (truthy next)); [|apply contained_ret].
      apply contained_bind; [apply contained_new_object|].
      intros fresh. apply contained_write_prop.
    + intros _. apply contained_bind; [apply contained_read_prop | apply IH].
Qed.

Lemma contained_set (k : string) (value : Value) (now : float) :
  contains_listener_errors (set k value now).
Proof.
  unfold set, get.
  apply contained_bind.
  { apply contained_bind; [apply contained_gets | intros; apply contained_read_prop]. }
  intros oldValue. apply contained_bind; [apply contained_deepEqual|].
  intros [|]; [apply contained_ret|].
  destruct (match map_get k setupValidators with
            | Some validator => negb (validator value k) | None => false end);
    [apply contained_modify|].
  apply contained_bind.
  { apply contained_bind; [apply contained_gets | intros; apply contained_write_prop]. }
  intros _. apply contained_bind; [apply contained_deepClone|]. intros oc.
  apply contained_bind; [apply contained_deepClone|]. intros nc.
  apply contained_bind; [apply contained_modify|]. intros _.
  apply contained_bind.
  { apply contained_bind; [apply contained_gets|].
    intros n. destruct (100 <? n)%nat; [apply contained_modify | apply contained_ret]. }
  intros _. apply contained_notifyListeners.
Qed.

Lemma contained_setNested (path : string) (value : Value) :
  contains_listener_errors (setNested path value).
Proof.
  unfold setNested. destruct (pop (split_dot path)) as [[lastkey|] keys];
    [|apply contained_ret].
  destruct (String.eqb lastkey ""); [apply contained_ret|].
  apply contained_bind; [apply contained_gets|]. intros s.
  apply contained_bind; [apply contained_descend|]. intros target.
  apply contained_bind; [apply contained_read_prop|]. intros oldValue.
  apply contained_bind; [apply contained_write_prop|]. intros _.
  apply contained_notifyListeners.
Qed.

Lemma contained_reset : contains_listener_errors reset.
Proof.
  unfold reset.
  apply contained_bind; [apply contained_gets|]. intros s.
  apply contained_bind; [apply contained_deepClone|]. intros oldState.
  apply contained_bind; [apply contained_deepClone|]. intros fresh.
  apply contained_bind; [apply contained_modify|]. intros _.
  apply contained_bind; [apply contained_gets|]. intros entries.
  apply contained_forEach. intros [k ls].
  apply contained_bind; [apply contained_gets|]. intros nv.
  apply contained_bind; [apply contained_gets|]. intros ov.
  apply contained_notifyListeners.
Qed.

(** The history log is written by [set] and [clearHistory] only. *)
Lemma keeps_bind {A B} (m : M A) (f : A -> M B) :
  keeps_history m -> (forall a, keeps_history (f a)) -> keeps_history (bind m f).
Proof.
  intros Hm Hf w. unfold bind. specialize (Hm w).
  destruct (m w) as [[a|e] w']; simpl in *; [by rewrite Hf | done].
Qed.

Lemma keeps_ret {A} (a : A) : keeps_history (ret a).
Proof. by intros w. Qed.

Lemma keeps_gets {A} (f : World -> A) : keeps_history (gets f).
Proof. by intros w. Qed.

Lemma keeps_read_prop (obj : Value) (k : string) : keeps_history (read_prop obj k).
Proof. by intros w. Qed.

Lemma keeps_write_prop (obj : Value) (k : string) (v : Value) :
  keeps_history (write_prop obj k v).
Proof. intros w. unfold write_prop. by destruct (set_prop (heap w) obj k v). Qed.

Lemma keeps_new_object : keeps_history new_object.
Proof. by intros w. Qed.

Lemma keeps_deepClone (v : Value) : keeps_history (deepClone v).
Proof.
  intros w. unfold deepClone.
  by destruct (deepClone_rec stack_limit v (heap w)) as [[v' h']|e].
Qed.

Lemma keeps_notifyListeners (k : string) (nv ov : Value) :
  keeps_history (notifyListeners k nv ov).
Proof. intros w. by rewrite notifyListeners_run. Qed.

Lemma keeps_forEach {A} (xs : list A) (body : A -> M unit) :
  (forall x, keeps_history (body x)) -> keeps_history (forEach xs body).
Proof.
  intros Hb. induction xs as [|x xs IH]; simpl.
  - apply keeps_ret.
  - apply keeps_bind; auto.
Qed.

Lemma keeps_descend (keys : list string) (obj : Value) :
  keeps_history (descend keys obj).
Proof.
  revert obj. induction keys as [|k keys IH]; intros obj; simpl.
  - apply keeps_ret.
  - apply keeps_bind; [apply keeps_read_prop|]. intros next.
    apply keeps_bind.
    + destruct (negb (truthy next)); [|apply keeps_ret].
      apply keeps_bind; [apply keeps_new_object|].
      intros fresh. apply keeps_write_prop.
    + intros _. apply keeps_bind; [apply keeps_read_prop | apply IH].
Qed.

Lemma keeps_setNested (path : string) (value : Value) :
  keeps_history (setNested path value).
Proof.
  unfold setNested. destruct (pop (split_dot path)) as [[lastkey|] keys];
    [|apply keeps_ret].
  destruct (String.eqb lastkey ""); [apply keeps_ret|].
  apply keeps_bind; [apply keeps_gets|]. intros s.
  apply keeps_bind; [apply keeps_descend|]. intros target.
  apply keeps_bind; [apply keeps_read_prop|]. intros oldValue.
  apply keeps_bind; [apply keeps_write_prop|]. intros _.
  apply keeps_notifyListeners.
Qed.

Lemma keeps_reset : keeps_history reset.
Proof.
  unfold reset.
  apply keeps_bind; [apply keeps_gets|]. intros s.
  apply keeps_bind; [apply keeps_deepClone|]. intros oldState.
  apply keeps_bind; [apply keeps_deepClone|]. intros fresh.
  apply keeps_bind; [by intros w|]. intros _.
  apply keeps_bind; [apply keeps_gets|]. intros entries.
  apply keeps_forEach. intros [k ls].
  apply keeps_bind; [apply keeps_gets|]. intros nv.
  apply keeps_bind; [apply keeps_gets|]. intros ov.
  apply keeps_notifyListeners.
Qed.



(** [set] keeps the log within its bound, however the call ends. *)
Lemma set_history_bound (k : string) (value : Value) (now : float) (w : World) :
  List.length (history w) <= 100 ->
  List.length (history (snd (set k value now w))) <= 100.
Proof.
  intros Hb. unfold set, get, bind, gets, read_prop, deepEqual.
  destruct (get_prop (heap w) (state w) k) as [stored|]; [|done].
  destruct (deepEqual_rec stack_limit (heap w) stored value) as [[|]|]; try done.
  destruct (match map_get k setupValidators with
            | Some validator => negb (validator value k) | None => false end);
    [done|].
  unfold write_prop.
  destruct (set_prop (heap w) (state w) k value) as [h0|]; [|done].
  unfold deepClone. cbn [heap with_heap].
  destruct (deepClone_rec stack_limit stored h0) as [[oc h1]|]; [|done].
  cbn [heap with_heap].
  destruct (deepClone_rec stack_limit value h1) as [[nc h2]|]; [|done].
  unfold modify. cbn [history with_history with_heap].
  destruct (100 <? List.length (history w ++ [mkEntry k oc nc now]))%nat eqn:E;
    unfold ret; cbv beta iota; rewrite notifyListeners_run;
    cbn [snd history emits with_history with_heap].
  - destruct (history w ++ [mkEntry k oc nc now]) as [|e0 log] eqn:El; simpl; [lia|].
    apply (f_equal (@List.length _)) in El. rewrite length_app in El. simpl in El. lia.
  - apply Nat.ltb_ge in E. done.
Qed.

End Footprints.

Lemma strict_eq_refl (v : Value) : is_NaN v = false -> strict_eq v v = true.
Proof.
  destruct v as [| |b|x|s|l]; simpl; try done.
  - intros _. by destruct b.
  - intros H. by apply negb_false_iff in H.
  - intros _. apply String.eqb_refl.
  - intros _. apply Nat.eqb_refl.
Qed.

Section SetStores.
Context {env : Environment}.


End SetStores.


(** ** The bounded log *)







Section Runs.
Context {env : Environment}.





End Runs.


(** ** The validators *)

Lemma includes_two (value : Value) :
  includes ["simplified"; "actual"] value = true <->
  value = VStr "simplified" \/ value = VStr "actual".
Proof.
  destruct value as [| | | |s|]; simpl; try (split; [done | intros [H|H]; discriminate H]).
  rewrite !orb_true_iff, !String.eqb_eq. split.
  - intros [->|[->|H]]; [by left | by right | done].
  - intros [[= ->]|[= ->]]; auto.
Qed.


(** ** The claims *)

Section Claims.
Context {env : Environment}.



(** C2 (the code departs from it).  The validator for the home-office
    method accepts exactly [null], ['simplified'] and ['actual'], but the
    constructor files it under ['selectHomeOfficeMethod'], a key the state
    does not have: the key ['selectedHomeOfficeMethod'] has no validator,
    and [set] stores, records and announces a value outside that set. *)
Theorem homeOfficeMethod_validator_misses_its_key :
  (exists validator,
      map_get "selectHomeOfficeMethod" setupValidators = Some validator /\
      forall value k,
        validator value k = true <->
        value = VNull \/ value = VStr "simplified" \/ value = VStr "actual") /\
  In "selectedHomeOfficeMethod" top_level_keys /\
  ~ In "selectHomeOfficeMethod" top_level_keys /\
  map_get "selectedHomeOfficeMethod" setupValidators = None /\
  let w := snd (subscribe "selectedHomeOfficeMethod" 1 boot) in
  let w' := snd (set (env := quiet) "selectedHomeOfficeMethod" (VStr "bogus") 1%float w) in
  get "selectedHomeOfficeMethod" w = (Normal VNull, w) /\
  fst (set (env := quiet) "selectedHomeOfficeMethod" (VStr "bogus") 1%float w) = Normal tt /\
  get "selectedHomeOfficeMethod" w' = (Normal (VStr "bogus"), w') /\
  history w' = [mkEntry "selectedHomeOfficeMethod" VNull (VStr "bogus") 1%float] /\
  trace w' = [Invoked 1 (VStr "bogus") VNull "selectedHomeOfficeMethod"].
Proof.
  split.
  { eexists. split; [reflexivity|]. intros value k. cbv beta.
    destruct (is_null value) eqn:En.
    - destruct value; try discriminate En. split; auto.
    - rewrite includes_two. split; [by right|].
      intros [->|H]; [discriminate En | done]. }
  split; [simpl; tauto|].
  split; [simpl; intros H; repeat (destruct H as [H|H]; [discriminate H|]); done|].
  split; [reflexivity|].
  cbv zeta. repeat split; vm_compute; reflexivity.
Qed.




(** C4 (amended).  Writing back the value a key holds changes nothing at
    all, provided the value is not [NaN]; more generally [set] changes
    nothing when the new value is identical ([===]) to the stored one, or
    equal to it under the recursive array rule and nested no deeper than
    the recursion can go.  In these cases no validator runs (no warning is
    logged even where one would reject), no history entry is appended and
    no listener is called. *)
Theorem set_same_value_is_noop
    (k : string) (stored value : Value) (now : float) (w : World) :
  0 < stack_limit ->
  get_prop (heap w) (state w) k = Normal stored ->
  (is_NaN stored = false -> set k stored now w = (Normal tt, w)) /\
  (strict_eq stored value = true -> set k value now w = (Normal tt, w)) /\
  (array_equal (heap w) stored value ->
   within_depth stack_limit (heap w) stored = true ->
   set k value now w = (Normal tt, w)).
Proof.
  intros Hpos Hg.
  assert (Hid : forall v, strict_eq stored v = true ->
                  deepEqual_rec stack_limit (heap w) stored v = Normal true).
  { intros v Hs. destruct stack_limit as [|d]; [lia|]. simpl. by rewrite Hs. }
  split; [|split].
  - intros Hnan. eapply set_unchanged; [exact Hg|]. by apply Hid, strict_eq_refl.
  - intros Hs. eapply set_unchanged; [exact Hg|]. by apply Hid.
  - intros Heq Hd. eapply set_unchanged; [exact Hg|]. by apply deepEqual_rec_complete.
Qed.





(** C7.  Each listener call is isolated.  A notification always completes
    normally; it calls every listener registered under the key, in order,
    with [(newValue, oldValue, key)], whether or not earlier listeners
    threw; a listener that throws is logged with the key and nothing else
    happens.  No listener exception reaches the caller of [set],
    [setNested] or [reset]. *)
Theorem listener_failures_are_isolated
    (k : string) (newValue oldValue : Value) (w : World) :
  notifyListeners k newValue oldValue w
    = (Normal tt, emits (notify_events k newValue oldValue (registered k w)) w) /\
  List.filter is_invoked (notify_events k newValue oldValue (registered k w))
    = map (fun l => Invoked l newValue oldValue k) (registered k w) /\
  (forall l, In (Errored k (ListenerThrew l))
               (notify_events k newValue oldValue (registered k w)) <->
             In l (registered k w) /\ listener_throws l newValue oldValue k = true) /\
  contains_listener_errors (fun w => notifyListeners k newValue oldValue w) /\
  (forall value now, contains_listener_errors (set k value now)) /\
  (forall path value, contains_listener_errors (setNested path value)) /\
  contains_listener_errors reset.
Proof.
  split; [apply notifyListeners_run|].
  split.
  { induction (registered k w) as [|l ls IH]; simpl; [done|].
    rewrite List.filter_app, IH. by destruct (listener_throws l newValue oldValue k). }
  split.
  { intros l. induction (registered k w) as [|x ls IH]; simpl; [tauto|].
    rewrite in_app_iff, IH.
    destruct (listener_throws x newValue oldValue k) eqn:E; simpl.
    - split.
      + intros [H|[[H|[]]|[H1 H2]]]; [discriminate H | injection H as <-; auto | auto].
      + intros [[->|H1] H2]; auto.
    - split.
      + intros [H|[[]|[H1 H2]]]; [discriminate H | auto].
      + intros [[->|H1] H2]; [congruence | auto]. }
  split; [apply contained_notifyListeners|].
  split; [intros; apply contained_set|].
  split; [intros; apply contained_setNested | apply contained_reset].
Qed.




(** C9.  The closure returned by [subscribe k l] removes exactly [l] from
    the set registered under [k] and leaves every other key alone; when the
    set becomes empty the key leaves the registry, so that the registry
    never binds a key to an empty set; nothing else changes.  A second call
    changes nothing, and after the first call no notification reaches [l]
    for that key. *)
Theorem unsubscribe_removes_and_prunes (k : string) (l : Listener) (w : World) :
  well_formed (listeners w) ->
  let w' := snd (unsubscribe k l w) in
  fst (unsubscribe k l w) = Normal tt /\
  heap w' = heap w /\ state w' = state w /\ history w' = history w /\
  trace w' = trace w /\
  registered k w' = set_delete l (registered k w) /\
  (forall x, In x (registered k w') <-> In x (registered k w) /\ x <> l) /\
  (forall k', k' <> k -> map_get k' (listeners w') = map_get k' (listeners w)) /\
  (map_get k (listeners w') = None <-> registered k w' = []) /\
  well_formed (listeners w') /\
  unsubscribe k l w' = (Normal tt, w') /\
  (forall k' nv ov,
      invocations l k (trace (snd (notifyListeners k' nv ov w')))
      = invocations l k (trace w')).
Proof.
  intros Hwf. cbv zeta.
  split; [by rewrite unsubscribe_run|].
  split; [by rewrite unsubscribe_run|].
  split; [by rewrite unsubscribe_run|].
  split; [by rewrite unsubscribe_run|].
  split; [apply unsubscribe_trace|].
  split; [apply unsubscribe_registered|].
  split; [intros x; rewrite unsubscribe_registered; apply set_delete_In|].
  split; [intros k' Hne; by apply unsubscribe_other_keys|].
  split; [apply unsubscribe_pruned|].
  split; [by apply unsubscribe_well_formed|].
  split; [apply unsubscribe_again|].
  intros k' nv ov. apply notify_skips_absent.
  rewrite unsubscribe_registered, set_delete_In. tauto.
Qed.




End Claims.

(** ** The claims at work on the running instance *)




(** Outside the amended C3: a step of the path that holds a primitive.  The
    active tab is a string, the assignment of a property on it raises. *)
Example setNested_through_a_string_raises :
  fst (setNested (env := quiet) "activeTab.x" (VNum 1) boot) = Abrupt TypeError.
Proof. reflexivity. Qed.

(** C4 on the active tab of the running instance. *)
Lemma set_same_value_is_noop_witness :
  0 < stack_limit (Environment := quiet) /\
  get "activeTab" watched = (Normal (VStr "overview"), watched) /\
  set (env := quiet) "activeTab" (VStr "overview") 1%float watched = (Normal tt, watched).
Proof.
  assert (Hpos : 0 < stack_limit (Environment := quiet)) by (vm_compute; lia).
  split; [exact Hpos|]. split; [reflexivity|].
  destruct (set_same_value_is_noop (env := quiet) "activeTab"
              (VStr "overview") (VStr "overview") 1%float watched Hpos eq_refl)
    as (Hsame & _ & _).
  exact (Hsame eq_refl).
Defined.

(** C4 as stated fails when the key holds [NaN].  On the loading flag,
    writing back what [get] returns appends a history entry and calls the
    listener; on the selected record of a manager built with [NaN] there, it
    runs the validator, which rejects the value and logs a warning. *)
Lemma set_same_NaN_is_not_a_noop :
  (get "isLoading" nan_stored = (Normal (VNum nan), nan_stored) /\
   let w' := snd (set (env := quiet) "isLoading" (VNum nan) 2%float nan_stored) in
   List.length (history nan_stored) = 1 /\
   List.length (history w') = 2 /\
   trace nan_stored = [] /\
   trace w' = [Invoked 1 (VNum nan) (VNum nan) "isLoading"]) /\
  (get "currentRecord" nan_record = (Normal (VNum nan), nan_record) /\
   trace nan_record = [] /\
   trace (snd (set (env := quiet) "currentRecord" (VNum nan) 2%float nan_record))
   = [Warned "currentRecord" (VNum nan)]).
Proof. cbv zeta. repeat split. Qed.




(** C9 on listener 1 of the active tab. *)
Lemma unsubscribe_removes_and_prunes_witness :
  well_formed (listeners watched) /\
  registered "activeTab" (snd (unsubscribe "activeTab" 1 watched)) = [2] /\
  map_get "data.income" (listeners (snd (unsubscribe "data.income" 3 watched))) = None.
Proof.
  assert (Hwf : well_formed (listeners watched)).
  { split.
    - vm_compute. distinct_elements.
    - vm_compute.
      repeat (apply Forall_cons_2; [split; [distinct_elements | discriminate]|]).
      apply Forall_nil_2. }
  split; [exact Hwf|].
  destruct (unsubscribe_removes_and_prunes (env := quiet) "activeTab" 1 watched Hwf)
    as (_ & _ & _ & _ & _ & Hreg & _).
  destruct (unsubscribe_removes_and_prunes (env := quiet) "data.income" 3 watched Hwf)
    as (_ & _ & _ & _ & _ & _ & _ & _ & Hpruned & _).
  split; [rewrite Hreg; reflexivity|].
  apply Hpruned. reflexivity.
Defined.


(** C7 at work: listener 1 throws, listener 2 is called all the same and
    [set] completes normally. *)
Example second_listener_still_called :
  fst (set (env := faulty) "activeTab" (VStr "income") 1%float watched) = Normal tt /\
  trace (snd (set (env := faulty) "activeTab" (VStr "income") 1%float watched))
  = [Invoked 1 (VStr "income") (VStr "overview") "activeTab";
     Errored "activeTab" (ListenerThrew 1);
     Invoked 2 (VStr "income") (VStr "overview") "activeTab"].
Proof. split; reflexivity. Qed.

(** ** Views: depth, cells and cycles *)



Lemma map_option_None {A B} (f : A -> option B) (xs : list A) :
  map_option f xs = None -> exists x, In x xs /\ f x = None.
Proof.
  induction xs as [|x0 xs IH]; simpl; [done|].
  destruct (f x0) as [y0|] eqn:E0.
  - destruct (map_option f xs) as [ys'|]; [done|].
    intros _. destruct (IH eq_refl) as (x & Hin & Hx). exists x. auto.
  - intros _. exists x0. auto.
Qed.

(** More depth never hurts. *)
Lemma view_mono (d : nat) (h : Heap) (v : Value) (r : Tree * list loc) :
  view d h v = Some r -> view (S d) h v = Some r.
Proof.
  revert v r. induction d as [|d IH]; intros v r; [done|].
  intros Hv. simpl in Hv. change (view (S (S d)) h v) with
    (match v with
     | VUndefined => Some (TUndefined, [])
     | VNull => Some (TNull, [])
     | VBool b => Some (TBool b, [])
     | VNum x => Some (TNum x, [])
     | VStr s => Some (TStr s, [])
     | VRef l =>
         match h !! l with
         | Some (ODate t) => Some (TDate t, [l])
         | Some (OArray items) =>
             match map_option (view (S d) h) items with
             | Some parts => Some (TArray (map fst parts), l :: concat (map snd parts))
             | None => None
             end
         | Some (OObject props) =>
             match map_option (view (S d) h) (map snd props) with
             | Some parts =>
                 Some (TObject (combine (map fst props) (map fst parts)),
                       l :: concat (map snd parts))
             | None => None
             end
         | None => None
         end
     end).
  destruct v as [| | | | |l]; try done.
  destruct (h !! l) as [o|]; [|done].
  destruct o as [props|items|t]; [| |done].
  - destruct (map_option (view d h) (map snd props)) as [parts|] eqn:Em; [|done].
    by rewrite (map_option_weaken _ (view (S d) h) _ _ (fun x y _ => IH x y) Em).
  - destruct (map_option (view d h) items) as [parts|] eqn:Em; [|done].
    by rewrite (map_option_weaken _ (view (S d) h) _ _ (fun x y _ => IH x y) Em).
Qed.

Lemma view_mono_le (d d' : nat) (h : Heap) (v : Value) (r : Tree * list loc) :
  d <= d' -> view d h v = Some r -> view d' h v = Some r.
Proof. induction 1; [done|]. intros Hv. apply view_mono. auto. Qed.





(** ** Closed heaps *)



Lemma valid_weaken (n n' : nat) (v : Value) :
  n <= n' -> valid n v = true -> valid n' v = true.
Proof. destruct v; simpl; try done. rewrite !Nat.ltb_lt. lia. Qed.

Lemma within_valid (a b : nat) (v : Value) : within a b v = true -> valid b v = true.
Proof. destruct v; simpl; try done. by intros [_ ?]%andb_prop. Qed.

Lemma within_weaken (a b a' b' : nat) (v : Value) :
  a' <= a -> b <= b' -> within a b v = true -> within a' b' v = true.
Proof.
  destruct v; simpl; try done. rewrite !andb_true_iff, !Nat.leb_le, !Nat.ltb_lt. lia.
Qed.

Lemma fresh_cells_refl (h : Heap) : fresh_cells h h.
Proof. exists []. by rewrite app_nil_r. Qed.

Lemma fresh_cells_trans (h1 h2 h3 : Heap) :
  fresh_cells h1 h2 -> fresh_cells h2 h3 -> fresh_cells h1 h3.
Proof.
  intros (e1 & -> & H1) (e2 & -> & H2). exists (e1 ++ e2).
  rewrite app_assoc. split; [done|]. apply Forall_app. split.
  - eapply Forall_impl; [exact H1|]. intros o Ho.
    eapply Forall_impl; [exact Ho|]. intros v. simpl.
    apply within_weaken; [done|]. rewrite !length_app. lia.
  - eapply Forall_impl; [exact H2|]. intros o Ho.
    eapply Forall_impl; [exact Ho|]. intros v. simpl.
    apply within_weaken; [|done]. rewrite !length_app. lia.
Qed.

Lemma fresh_cells_length (h h' : Heap) : fresh_cells h h' -> List.length h <= List.length h'.
Proof. intros (e & -> & _). rewrite length_app. lia. Qed.

Lemma map_heap_cells (d : nat) (items : list Value) :
  (forall v v' h h', deepClone_rec d v h = Normal (v', h') ->
     fresh_cells h h' /\ within (List.length h) (List.length h') v' = true) ->
  forall (items' : list Value) (h h' : Heap),
    map_heap (deepClone_rec d) items h = Normal (items', h') ->
    fresh_cells h h' /\
    Forall (fun v' => within (List.length h) (List.length h') v' = true) items'.
Proof.
  intros IHd. induction items as [|x xs IH]; intros items' h h'; simpl.
  - intros [= <- <-]. split; [apply fresh_cells_refl | constructor].
  - destruct (deepClone_rec d x h) as [[x' h1]|] eqn:Ex; [|done].
    destruct (map_heap (deepClone_rec d) xs h1) as [[xs' h2]|] eqn:Exs; [|done].
    intros [= <- <-].
    destruct (IHd _ _ _ _ Ex) as [F1 W1].
    destruct (IH _ _ _ Exs) as [F2 W2].
    split; [by eapply fresh_cells_trans|].
    pose proof (fresh_cells_length _ _ F1). pose proof (fresh_cells_length _ _ F2).
    constructor.
    + eapply within_weaken; [| |exact W1]; lia.
    + eapply Forall_impl; [exact W2|]. intros v. apply within_weaken; lia.
Qed.

Lemma fresh_cells_alloc (h h1 : Heap) (o : HObj) :
  fresh_cells h h1 ->
  Forall (fun v => within (List.length h) (List.length h1) v = true) (values_of o) ->
  fresh_cells h (h1 ++ [o]) /\
  within (List.length h) (List.length (h1 ++ [o])) (VRef (List.length h1)) = true.
Proof.
  intros F Hvals. pose proof (fresh_cells_length _ _ F). split.
  - destruct F as (e1 & -> & He1). exists (e1 ++ [o]).
    rewrite app_assoc. split; [done|]. apply Forall_app. split.
    + eapply Forall_impl; [exact He1|]. intros o' Ho'.
      eapply Forall_impl; [exact Ho'|]. intros v. simpl.
      apply within_weaken; [done|]. rewrite !length_app. lia.
    + constructor; [|constructor].
      eapply Forall_impl; [exact Hvals|]. intros v.
      apply within_weaken; [done|]. rewrite !length_app. lia.
  - simpl. rewrite length_app. simpl.
    rewrite andb_true_iff, Nat.leb_le, Nat.ltb_lt. lia.
Qed.

Lemma within_primitive (a b : nat) (v : Value) :
  (forall l, v <> VRef l) -> within a b v = true.
Proof. destruct v; try done. intros H. by destruct (H l). Qed.

Lemma deepClone_rec_cells (d : nat) (v v' : Value) (h h' : Heap) :
  deepClone_rec d v h = Normal (v', h') ->
  fresh_cells h h' /\ within (List.length h) (List.length h') v' = true.
Proof.
  revert v v' h h'. induction d as [|d IH]; intros v v' h h'; simpl; [done|].
  destruct v as [| | | | |l];
    try (intros [= <- <-]; split; [apply fresh_cells_refl | done]).
  destruct (h !! l) as [o|] eqn:El; [|done].
  destruct o as [props|items|time].
  - destruct (map_heap (deepClone_rec d) (map snd props) h) as [[vals h1]|] eqn:Em; [|done].
    unfold alloc. intros [= <- <-].
    destruct (map_heap_cells d _ IH _ _ _ Em) as [F W].
    apply fresh_cells_alloc; [done|]. simpl.
    rewrite map_snd_combine; [done|].
    rewrite (map_heap_length _ _ _ _ _ Em). by rewrite !length_map.
  - destruct (map_heap (deepClone_rec d) items h) as [[items' h1]|] eqn:Em; [|done].
    unfold alloc. intros [= <- <-].
    destruct (map_heap_cells d _ IH _ _ _ Em) as [F W].
    by apply fresh_cells_alloc.
  - unfold alloc. intros [= <- <-].
    apply fresh_cells_alloc; [apply fresh_cells_refl | constructor].
Qed.

(** Closed heaps stay closed. *)
Lemma closed_Forall (h : Heap) :
  closed h = true <->
  Forall (fun o => Forall (fun v => valid (List.length h) v = true) (values_of o)) h.
Proof.
  unfold closed. rewrite forallb_forall, Forall_forall. split.
  - intros H o Ho. apply Forall_forall. intros v Hv.
    apply list_elem_of_In in Ho, Hv.
    specialize (H o Ho). rewrite forallb_forall in H. by apply H.
  - intros H o Ho. apply forallb_forall. intros v Hv.
    apply list_elem_of_In in Ho, Hv.
    specialize (H o Ho). rewrite Forall_forall in H. by apply H.
Qed.

Lemma closed_fresh_cells (h h' : Heap) :
  closed h = true -> fresh_cells h h' -> closed h' = true.
Proof.
  rewrite !closed_Forall. intros Hc (extra & -> & He). apply Forall_app. split.
  - eapply Forall_impl; [exact Hc|]. intros o Ho.
    eapply Forall_impl; [exact Ho|]. intros v. simpl.
    apply valid_weaken. rewrite length_app. lia.
  - eapply Forall_impl; [exact He|]. intros o Ho.
    eapply Forall_impl; [exact Ho|]. intros v. simpl. apply within_valid.
Qed.

Lemma values_of_update (k : string) (v x : Value) (props : list (string * Value)) :
  In x (map snd (prop_update k v props)) -> x = v \/ In x (map snd props).
Proof.
  induction props as [|[k0 v0] rest IH]; simpl.
  - intros [<-|[]]. auto.
  - destruct (String.eqb k0 k); simpl.
    + intros [<-|H]; auto.
    + intros [<-|H]; [auto|]. destruct (IH H); auto.
Qed.

Lemma values_of_store (i : nat) (v x : Value) (items : list Value) :
  In x (array_store i v items) -> x = v \/ x = VUndefined \/ In x items.
Proof.
  unfold array_store. destruct (i <? List.length items)%nat eqn:E.
  - intros Hin. apply list_elem_of_In in Hin.
    apply list_elem_of_lookup_1 in Hin as (j & Hj).
    destruct (decide (i = j)) as [->|Hne].
    + apply Nat.ltb_lt in E. rewrite list_lookup_insert_eq in Hj by done.
      injection Hj as <-. auto.
    + rewrite list_lookup_insert_ne in Hj by done.
      right; right. apply list_elem_of_In. by eapply list_elem_of_lookup_2.
  - rewrite !in_app_iff. intros [H|[H|[<-|[]]]]; auto.
    apply list_elem_of_In, elem_of_replicate in H as [-> _]. auto.
Qed.




(** ** The manager: copies, failures and paths *)



Lemma split_dot_app (p q : string) :
  split_dot (p ++ "." ++ q)%string = split_dot p ++ split_dot q.
Proof.
  induction p as [|c p IH]; [done|].
  change (String c p ++ "." ++ q)%string with (String c (p ++ "." ++ q)%string).
  simpl. destruct (Ascii.eqb c "."); [by rewrite IH|].
  rewrite IH. pose proof (split_dot_nonempty p).
  by destruct (split_dot p).
Qed.

Lemma split_dot_no_dot (k : string) : has_dot k = false -> split_dot k = [k].
Proof.
  unfold has_dot. induction k as [|c k IH]; [done|].
  cbn [list_ascii_of_string existsb split_dot].
  rewrite (Ascii.eqb_sym "."%char c). destruct (Ascii.eqb c "."); [done|].
  simpl. intros H. by rewrite (IH H).
Qed.

Lemma get_prop_opt_nothing (h : Heap) (v : Value) (keys : list string) :
  v = VUndefined \/ v = VNull -> keys <> [] ->
  fold_left (get_prop_opt h) keys v = VUndefined.
Proof.
  intros Hv Hkeys. destruct keys as [|k keys]; [done|]. simpl.
  assert (get_prop_opt h v k = VUndefined) as -> by (by destruct Hv as [-> | ->]).
  clear. induction keys as [|k' keys IH]; [done|]. simpl. exact IH.
Qed.

Section Manager.

Context {env : Environment}.





(** X5.  [getNested] reads a path segment by segment and never raises:
    reading [p.q] is reading [q] from what [p] leads to; once a prefix leads
    to [undefined] or [null], every longer path gives [undefined]; and for a
    key without a dot, on a state that is an object, it is [get]. *)
Theorem getNested_follows_paths (p q : string) (w : World) :
  (exists v,
      getNested p w = (Normal v, w) /\
      getNested (p ++ "." ++ q)%string w
      = (Normal (getNestedFromState (heap w) v q), w) /\
      (v = VUndefined \/ v = VNull ->
       getNested (p ++ "." ++ q)%string w = (Normal VUndefined, w))) /\
  (has_dot p = false -> state_ok w = true -> getNested p w = get p w).
Proof.
  split.
  - exists (getNestedFromState (heap w) (state w) p). split; [done|].
    assert (Hpath : getNestedFromState (heap w) (state w) (p ++ "." ++ q)%string
                    = getNestedFromState (heap w)
                        (getNestedFromState (heap w) (state w) p) q).
    { unfold getNestedFromState. by rewrite split_dot_app, fold_left_app. }
    unfold getNested, gets. rewrite Hpath. split; [done|].
    intros Hv. f_equal. f_equal. unfold getNestedFromState at 1.
    apply get_prop_opt_nothing; [done | apply split_dot_nonempty].
  - intros Hdot Hok. unfold getNested, gets, getNestedFromState, get, bind, read_prop.
    rewrite (split_dot_no_dot _ Hdot). simpl. unfold get_prop_opt.
    destruct (is_plain_object _ _ Hok) as (l & props & -> & Hl).
    by rewrite (get_prop_plain _ _ _ _ Hl).
Qed.

End Manager.

(** ** Symmetry of the equality test *)

Lemma SFcompare_Eq_sym (x y : spec_float) :
  SFcompare x y = Some Eq -> SFcompare y x = Some Eq.
Proof.
  destruct x as [sx|sx| |sx mx ex], y as [sy|sy| |sy my ey]; simpl; try done;
    try (by destruct sx); try (by destruct sy); try (by destruct sx, sy).
  destruct sx, sy; try done.
  - rewrite (Z.compare_antisym ex ey). destruct (ex ?= ey)%Z eqn:E; simpl; try done.
    pose proof (Pos.compare_cont_antisym mx my Eq) as H. simpl in H. rewrite <- H.
    destruct (Pos.compare_cont Eq mx my); simpl; done.
  - rewrite (Z.compare_antisym ex ey). destruct (ex ?= ey)%Z eqn:E; simpl; try done.
    pose proof (Pos.compare_cont_antisym mx my Eq) as H. simpl in H. rewrite <- H.
    destruct (Pos.compare_cont Eq mx my); simpl; done.
Qed.

Lemma float_eqb_sym (x y : float) : PrimFloat.eqb x y = PrimFloat.eqb y x.
Proof.
  rewrite !FloatAxioms.eqb_spec. unfold SFeqb.
  destruct (SFcompare (Prim2SF x) (Prim2SF y)) as [[]|] eqn:E1.
  - by rewrite (SFcompare_Eq_sym _ _ E1).
  - destruct (SFcompare (Prim2SF y) (Prim2SF x)) as [[]|] eqn:E2; try done.
    by rewrite (SFcompare_Eq_sym _ _ E2) in E1.
  - destruct (SFcompare (Prim2SF y) (Prim2SF x)) as [[]|] eqn:E2; try done.
    by rewrite (SFcompare_Eq_sym _ _ E2) in E1.
  - destruct (SFcompare (Prim2SF y) (Prim2SF x)) as [[]|] eqn:E2; try done.
    by rewrite (SFcompare_Eq_sym _ _ E2) in E1.
Qed.

Lemma strict_eq_sym (a b : Value) : strict_eq a b = strict_eq b a.
Proof.
  destruct a, b; simpl; try done.
  - by destruct b, b0.
  - apply float_eqb_sym.
  - apply String.eqb_sym.
  - apply Nat.eqb_sym.
Qed.

Lemma all_equal_sym (eq : Value -> Value -> Completion bool) (xs ys : list Value) :
  (forall x y, eq x y = eq y x) -> all_equal eq xs ys = all_equal eq ys xs.
Proof.
  intros Hsym. revert ys. induction xs as [|x xs IH]; intros [|y ys]; simpl; try done.
  rewrite (Hsym y x). destruct (eq x y) as [[]|]; try done.
Qed.

Section Symmetry.

Context {env : Environment}.

(** X6.  The equality test of [set] does not depend on the order of its
    arguments: [deepEqual(a, b)] and [deepEqual(b, a)] give the same answer,
    or both exhaust the stack. *)
Theorem deepEqual_is_symmetric (a b : Value) (w : World) :
  deepEqual a b w = deepEqual b a w.
Proof.
  unfold deepEqual. f_equal. generalize stack_limit. intros d.
  revert a b. induction d as [|d IH]; intros a b; simpl; [done|].
  rewrite (strict_eq_sym b a). destruct (strict_eq a b); [done|].
  rewrite (orb_comm (is_null b)). destruct (is_null a || is_null b); [done|].
  destruct (array_items (heap w) a) as [xs|], (array_items (heap w) b) as [ys|]; try done.
  rewrite (Nat.eqb_sym (List.length ys)).
  destruct (negb (Nat.eqb (List.length xs) (List.length ys))); [done|].
  by apply all_equal_sym.
Qed.

End Symmetry.

(** ** The manager's further properties on the running instance *)





(** X5 on the running instance: there is no overview yet, so nothing is
    found below it; the active tab is read as [get] reads it. *)
Lemma getNested_follows_paths_witness :
  getNested "data.overview" boot = (Normal VUndefined, boot) /\
  getNested "data.overview.totalIncome" boot = (Normal VUndefined, boot) /\
  getNested "activeTab" boot = get "activeTab" boot.
Proof.
  destruct (getNested_follows_paths "data.overview" "totalIncome" boot)
    as [(v & Hp & _ & Hnone) _].
  destruct (getNested_follows_paths "activeTab" "" boot) as [_ Hget].
  assert (Hv : v = VUndefined) by (vm_compute in Hp; congruence).
  split; [by rewrite Hp, Hv|]. split; [exact (Hnone (or_introl Hv))|].
  exact (Hget eq_refl eq_refl).
Defined.

(** ** Computations that keep an invariant *)

Lemma respects_ret {A} (I : World -> Prop) (Q : A -> Prop) (a : A) :
  Q a -> respects I Q (ret a).
Proof. intros Ha w Hw. split; [done|]. by intros a' [= <-]. Qed.

Lemma respects_bind {A B} (I : World -> Prop) (Q : A -> Prop) (R : B -> Prop)
    (m : M A) (f : A -> M B) :
  respects I Q m -> (forall a, Q a -> respects I R (f a)) -> respects I R (bind m f).
Proof.
  intros Hm Hf w Hw. unfold bind. destruct (Hm w Hw) as [HI HQ].
  destruct (m w) as [[a|e] w']; cbn [fst snd] in *.
  - exact (Hf a (HQ a eq_refl) w' HI).
  - split; [done|]. by intros b.
Qed.

Lemma respects_weaken {A} (I : World -> Prop) (Q Q' : A -> Prop) (m : M A) :
  (forall a, Q a -> Q' a) -> respects I Q m -> respects I Q' m.
Proof. intros HQ Hm w Hw. destruct (Hm w Hw) as [HI Ha]. split; [done|]. eauto. Qed.

Lemma respects_gets {A} (I : World -> Prop) (Q : A -> Prop) (f : World -> A) :
  (forall w, I w -> Q (f w)) -> respects I Q (gets f).
Proof. intros Hf w Hw. split; [done|]. intros a [= <-]. by apply Hf. Qed.

Lemma respects_modify (I : World -> Prop) (f : World -> World) :
  (forall w, I w -> I (f w)) -> respects I (fun _ => True) (modify f).
Proof. intros Hf w Hw. split; [by apply Hf | done]. Qed.

Lemma respects_throw {A} (I : World -> Prop) (Q : A -> Prop) (e : Exn) :
  respects I Q (throw e).
Proof. intros w Hw. split; [done|]. by intros a. Qed.

Lemma respects_lift {A} (I : World -> Prop) (Q : A -> Prop) (c : Completion A) :
  (forall a, c = Normal a -> Q a) -> respects I Q (lift c).
Proof. intros Hc w Hw. split; [done|]. exact Hc. Qed.

Lemma respects_try_catch (I : World -> Prop) (body : M unit) (handler : Exn -> M unit) :
  respects I (fun _ => True) body ->
  (forall e, respects I (fun _ => True) (handler e)) ->
  respects I (fun _ => True) (try_catch body handler).
Proof.
  intros Hb Hh w Hw. unfold try_catch. destruct (Hb w Hw) as [HI _].
  destruct (body w) as [[a|e] w']; cbn [snd] in *; [done|].
  exact (Hh e w' HI).
Qed.

Lemma respects_forEach {A} (I : World -> Prop) (xs : list A) (body : A -> M unit) :
  (forall x, In x xs -> respects I (fun _ => True) (body x)) ->
  respects I (fun _ => True) (forEach xs body).
Proof.
  induction xs as [|x xs IH]; intros Hbody; simpl.
  - by apply respects_ret.
  - eapply respects_bind; [apply Hbody; simpl; auto|].
    intros _ _. apply IH. intros x' Hx'. apply Hbody. simpl; auto.
Qed.

Lemma respects_drop {A} (I : World -> Prop) (Q : A -> Prop) (m : M A) :
  respects I Q m -> respects I (fun _ => True) (m ;; ret tt).
Proof.
  intros Hm. eapply respects_bind; [exact Hm|]. intros a _. by apply respects_ret.
Qed.

(** ** The invariant of the store *)

Lemma sound_same (w w' : World) :
  heap w' = heap w -> state w' = state w -> listeners w' = listeners w ->
  sound w -> sound w'.
Proof. unfold sound, state_ok. by intros -> -> ->. Qed.

Lemma outside_ref (l : loc) :
  outside (VRef l) = true <-> List.length module_heap <= l.
Proof. unfold outside. by rewrite Nat.leb_le. Qed.

Lemma sound_cell (w : World) (l : loc) (o : HObj) :
  sound w -> outside (VRef l) = true -> heap w !! l = Some o ->
  Forall (fun v => outside v = true) (values_of o).
Proof.
  intros ((rest & Hh & Hrest) & _) Hl%outside_ref El. rewrite Hh in El.
  rewrite lookup_app_r in El by done.
  rewrite Forall_forall in Hrest. apply Hrest. by eapply list_elem_of_lookup_2.
Qed.

Lemma prop_lookup_In (k : string) (v : Value) (props : list (string * Value)) :
  prop_lookup k props = Some v -> In v (map snd props).
Proof.
  induction props as [|[k0 v0] rest IH]; [done|]. simpl.
  destruct (String.eqb k0 k); [intros [= ->]; auto | auto].
Qed.

Lemma get_prop_outside (w : World) (obj : Value) (k : string) (v : Value) :
  sound w -> outside obj = true -> get_prop (heap w) obj k = Normal v ->
  outside v = true.
Proof.
  intros Hs Hobj. unfold get_prop.
  destruct obj as [| | | |s|l]; try done; try (by intros [= <-]).
  - intros [= <-]. unfold string_get. destruct (String.eqb k "length"); [done|].
    destruct (parse_index k); [|done]. by destruct (String.get n s).
  - destruct (heap w !! l) as [o|] eqn:El; [|by intros [= <-]].
    pose proof (sound_cell w l o Hs Hobj El) as Hvals. rewrite Forall_forall in Hvals.
    destruct o as [props|items|t]; [| |by intros [= <-]].
    + intros [= <-]. destruct (prop_lookup k props) as [v0|] eqn:Ek; [|done].
      simpl. apply Hvals, list_elem_of_In. by eapply prop_lookup_In.
    + intros [= <-]. unfold array_get. destruct (String.eqb k "length"); [done|].
      destruct (parse_index k) as [i|]; [|done].
      destruct (items !! i) as [x|] eqn:Ei; [|done]. simpl.
      apply Hvals. by eapply list_elem_of_lookup_2.
Qed.

Lemma respects_read_prop (obj : Value) (k : string) :
  outside obj = true ->
  respects sound (fun v => outside v = true) (read_prop obj k).
Proof.
  intros Hobj w Hw. split; [done|]. unfold read_prop. cbn [fst].
  intros v Hv. by eapply get_prop_outside.
Qed.

Lemma is_plain_insert (h : Heap) (l : loc) (o o' : HObj) (v : Value) :
  h !! l = Some o ->
  (match o, o' with OObject _, OObject _ | OArray _, OArray _ => True | _, _ => False end) ->
  is_plain (<[l := o']> h) v = is_plain h v.
Proof.
  intros El Hkind. destruct v as [| | | | |l0]; try done. simpl.
  destruct (decide (l = l0)) as [<-|Hne].
  - rewrite list_lookup_insert_eq by (by eapply lookup_lt_Some). rewrite El.
    by destruct o, o'.
  - by rewrite list_lookup_insert_ne.
Qed.

Lemma sound_insert (w : World) (l : loc) (o o' : HObj) :
  sound w -> outside (VRef l) = true -> heap w !! l = Some o ->
  (match o, o' with OObject _, OObject _ | OArray _, OArray _ => True | _, _ => False end) ->
  Forall (fun v => outside v = true) (values_of o') ->
  sound (with_heap (<[l := o']> (heap w)) w).
Proof.
  intros ((rest & Hh & Hrest) & Hst & Hok & Hwf) Hl%outside_ref El Hkind Hvals.
  split; [|split; [done|split; [|done]]].
  - cbn [heap with_heap]. exists (<[l - List.length module_heap := o']> rest). split.
    + rewrite Hh. rewrite insert_app_r_alt by done. done.
    + by apply Forall_insert.
  - unfold state_ok in *. cbn [heap state with_heap].
    by rewrite (is_plain_insert _ _ _ _ _ El Hkind).
Qed.

Lemma respects_write_prop (obj : Value) (k : string) (v : Value) :
  outside obj = true -> outside v = true ->
  respects sound (fun _ => True) (write_prop obj k v).
Proof.
  intros Hobj Hv w Hw. split; [|done]. unfold write_prop, set_prop.
  destruct obj as [| | | | |l]; try done.
  destruct (heap w !! l) as [o|] eqn:El; [|done].
  pose proof (sound_cell w l o Hw Hobj El) as Hvals. rewrite Forall_forall in Hvals.
  destruct o as [props|items|t]; [| |done].
  - cbn [snd]. eapply sound_insert; [done..|].
    simpl. apply Forall_forall. intros x Hx.
    apply list_elem_of_In, values_of_update in Hx as [->|Hx]; [done|].
    by apply Hvals, list_elem_of_In.
  - destruct (parse_index k) as [i|]; [|done].
    cbn [snd]. eapply sound_insert; [done..|].
    simpl. apply Forall_forall. intros x Hx.
    apply list_elem_of_In, values_of_store in Hx as [->|[->|Hx]]; [done|done|].
    by apply Hvals, list_elem_of_In.
Qed.

Lemma sound_grow (w : World) (extra : Heap) :
  sound w ->
  Forall (fun o => Forall (fun v => outside v = true) (values_of o)) extra ->
  sound (with_heap (heap w ++ extra) w).
Proof.
  intros ((rest & Hh & Hrest) & Hst & Hok & Hwf) Hextra.
  split; [|split; [done|split; [|done]]].
  - cbn [heap with_heap]. exists (rest ++ extra). rewrite Hh, app_assoc.
    split; [done|]. by apply Forall_app.
  - unfold state_ok in *. cbn [heap state with_heap].
    destruct (is_plain_object _ _ Hok) as (l & props & -> & El). simpl.
    by rewrite (lookup_app_l_Some _ _ _ _ El).
Qed.

Lemma sound_length (w : World) : sound w -> List.length module_heap <= List.length (heap w).
Proof. intros ((rest & -> & _) & _). rewrite length_app. lia. Qed.

Lemma respects_new_cell (o : HObj) :
  Forall (fun v => outside v = true) (values_of o) ->
  respects sound (fun v => outside v = true) (new_cell o).
Proof.
  intros Ho w Hw. unfold new_cell, alloc. cbn [fst snd]. split.
  - apply sound_grow; [done|]. by constructor.
  - intros v [= <-]. apply outside_ref. by apply sound_length.
Qed.

Lemma within_outside (a b : nat) (v : Value) :
  List.length module_heap <= a -> within a b v = true -> outside v = true.
Proof.
  destruct v as [| | | | |l]; try done. unfold within, outside.
  rewrite andb_true_iff, !Nat.leb_le. lia.
Qed.

Section SoundManager.

Context {env : Environment}.

Lemma respects_deepClone (v : Value) :
  respects sound (fun v' => outside v' = true) (deepClone v).
Proof.
  intros w Hw. unfold deepClone.
  destruct (deepClone_rec stack_limit v (heap w)) as [[v' h']|e] eqn:E; [|by split].
  destruct (deepClone_rec_cells _ _ _ _ _ E) as [(extra & -> & Hextra) Hv'].
  pose proof (sound_length w Hw). cbn [fst snd]. split.
  - apply sound_grow; [done|].
    eapply Forall_impl; [exact Hextra|]. intros o Ho.
    eapply Forall_impl; [exact Ho|]. intros x. simpl. by apply within_outside.
  - intros a [= <-]. by eapply within_outside.
Qed.

Lemma respects_deepEqual (a b : Value) :
  respects sound (fun _ => True) (deepEqual a b).
Proof. intros w Hw. by split. Qed.

Lemma sound_emits (evs : list Event) (w : World) : sound w -> sound (emits evs w).
Proof. by apply sound_same. Qed.

Lemma respects_notifyListeners (k : string) (nv ov : Value) :
  respects sound (fun _ => True) (notifyListeners k nv ov).
Proof.
  intros w Hw. rewrite notifyListeners_run. cbn [fst snd]. split; [|done].
  by apply sound_emits.
Qed.

Lemma respects_state : respects sound (fun v => outside v = true) (gets state).
Proof. apply respects_gets. by intros w (_ & H & _). Qed.

Lemma respects_get (k : string) :
  respects sound (fun v => outside v = true) (get k).
Proof.
  unfold get. eapply respects_bind; [apply respects_state|].
  intros s Hs. by apply respects_read_prop.
Qed.

Lemma respects_history (f : World -> list HistoryEntry) :
  respects sound (fun _ => True) (modify (fun w => with_history (f w) w)).
Proof. apply respects_modify. intros w. by apply sound_same. Qed.

Lemma respects_set (k : string) (value : Value) (now : float) :
  outside value = true -> respects sound (fun _ => True) (set k value now).
Proof.
  intros Hv. unfold set.
  eapply respects_bind; [apply respects_get|]. intros oldValue Hold.
  eapply respects_bind; [apply respects_deepEqual|]. intros unchanged _.
  destruct unchanged; [by apply respects_ret|].
  destruct (match map_get k setupValidators with
            | Some validator => negb (validator value k)
            | None => false
            end).
  { apply respects_modify. intros w. by apply sound_same. }
  eapply respects_bind.
  { eapply respects_bind; [apply respects_state|]. intros s Hs.
    by apply respects_write_prop. }
  intros _ _.
  eapply respects_bind; [apply respects_deepClone|]. intros oldClone _.
  eapply respects_bind; [apply respects_deepClone|]. intros newClone _.
  eapply respects_bind; [apply respects_history|]. intros _ _.
  eapply respects_bind.
  { eapply respects_bind; [by apply (respects_gets _ (fun _ => True))|].
    intros n _. destruct (100 <? n)%nat; [apply respects_history | by apply respects_ret]. }
  intros _ _. apply respects_notifyListeners.
Qed.

Lemma get_prop_opt_outside (w : World) (obj : Value) (k : string) :
  sound w -> outside obj = true -> outside (get_prop_opt (heap w) obj k) = true.
Proof.
  intros Hw Hobj. unfold get_prop_opt.
  destruct (get_prop (heap w) obj k) as [v|e] eqn:E; [|done].
  by eapply get_prop_outside.
Qed.

Lemma fold_get_outside (w : World) (keys : list string) (obj : Value) :
  sound w -> outside obj = true ->
  outside (fold_left (get_prop_opt (heap w)) keys obj) = true.
Proof.
  intros Hw. revert obj. induction keys as [|k keys IH]; intros obj Hobj; [done|].
  simpl. apply IH. by apply get_prop_opt_outside.
Qed.

Lemma respects_getNested (path : string) :
  respects sound (fun v => outside v = true) (getNested path).
Proof.
  apply respects_gets. intros w Hw. unfold getNestedFromState.
  apply fold_get_outside; [done|]. by destruct Hw as (_ & H & _).
Qed.

Lemma respects_new_object : respects sound (fun v => outside v = true) new_object.
Proof. exact (respects_new_cell (OObject []) (Forall_nil_2 _)). Qed.

Lemma respects_descend (keys : list string) (obj : Value) :
  outside obj = true ->
  respects sound (fun v => outside v = true) (descend keys obj).
Proof.
  revert obj. induction keys as [|k keys IH]; intros obj Hobj; simpl.
  - by apply respects_ret.
  - eapply respects_bind; [by apply respects_read_prop|]. intros next Hnext.
    eapply respects_bind.
    { destruct (negb (truthy next)); [|by apply (respects_ret _ (fun _ => True))].
      eapply respects_bind; [apply respects_new_object|]. intros fresh Hfresh.
      by apply respects_write_prop. }
    intros _ _.
    eapply respects_bind; [by apply respects_read_prop|]. intros next' Hnext'.
    by apply IH.
Qed.

Lemma respects_setNested (path : string) (value : Value) :
  outside value = true -> respects sound (fun _ => True) (setNested path value).
Proof.
  intros Hv. unfold setNested. destruct (pop (split_dot path)) as [[lastkey|] keys];
    [|by apply respects_ret].
  destruct (String.eqb lastkey ""); [by apply respects_ret|].
  eapply respects_bind; [apply respects_state|]. intros s Hs.
  eapply respects_bind; [by apply respects_descend|]. intros target Ht.
  eapply respects_bind; [by apply respects_read_prop|]. intros oldValue _.
  eapply respects_bind; [by apply respects_write_prop|]. intros _ _.
  apply respects_notifyListeners.
Qed.

Lemma respects_subscribe (k : string) (l : Listener) :
  respects sound (fun _ => True) (subscribe k l).
Proof.
  intros w Hw. rewrite subscribe_run. cbn [fst snd]. split; [|done].
  destruct Hw as (Hh & Hs & Hok & Hwf).
  split; [exact Hh|]. split; [exact Hs|]. split; [exact Hok|].
  apply (well_formed_subscribe k l _ Hwf).
Qed.

Lemma respects_unsubscribe (k : string) (l : Listener) :
  respects sound (fun _ => True) (unsubscribe k l).
Proof.
  intros w Hw. split; [|done].
  destruct Hw as (Hh & Hs & Hok & Hwf).
  pose proof (unsubscribe_well_formed k l w Hwf) as Hwf'.
  rewrite unsubscribe_run in *. cbn [fst snd] in *.
  split; [exact Hh|]. split; [exact Hs|]. split; [exact Hok|]. exact Hwf'.
Qed.

Lemma respects_clearHistory : respects sound (fun _ => True) clearHistory.
Proof. apply respects_modify. intros w. by apply sound_same. Qed.

Lemma deepClone_rec_plain (d : nat) (v v' : Value) (h h' : Heap) :
  is_plain h v = true -> deepClone_rec d v h = Normal (v', h') -> is_plain h' v' = true.
Proof.
  destruct d as [|d]; [done|]. simpl.
  destruct v as [| | | | |l]; try done. simpl.
  destruct (h !! l) as [[props|items|t]|]; try done. intros _.
  destruct (map_heap (deepClone_rec d) (map snd props) h) as [[vals h1]|]; [|done].
  unfold alloc. intros [= <- <-]. simpl. by rewrite lookup_alloc.
Qed.

Lemma is_plain_app (h extra : Heap) (v : Value) :
  is_plain h v = true -> is_plain (h ++ extra) v = true.
Proof.
  intros H. destruct (is_plain_object _ _ H) as (l & props & -> & El). simpl.
  by rewrite (lookup_app_l_Some _ _ _ _ El).
Qed.

Lemma sound_initialState (w : World) : sound w -> is_plain (heap w) initialState = true.
Proof. intros ((rest & -> & _) & _). by apply is_plain_app. Qed.

Lemma respects_reset_notifications (oldState : Value) :
  respects sound (fun _ => True)
    (let* entries := gets listeners in
     forEach entries (fun '(k, _) =>
       let* newValue := getNested k in
       let* oldValue := gets (fun w => getNestedFromState (heap w) oldState k) in
       notifyListeners k newValue oldValue)).
Proof.
  eapply respects_bind; [by apply (respects_gets _ (fun _ => True))|].
  intros entries _. apply respects_forEach. intros [k ls] _.
  eapply respects_bind; [apply respects_getNested|]. intros newValue _.
  eapply respects_bind; [by apply (respects_gets _ (fun _ => True))|].
  intros oldValue _. apply respects_notifyListeners.
Qed.

Lemma bind_run {A B} (m : M A) (f : A -> M B) (w : World) :
  bind m f w = match m w with
               | (Normal a, w') => f a w'
               | (Abrupt e, w') => (Abrupt e, w')
               end.
Proof. done. Qed.

Lemma respects_reset : respects sound (fun _ => True) reset.
Proof.
  intros w Hw. split; [|done].
  destruct (reset w) as [c w'] eqn:E. cbn [snd].
  unfold reset in E. rewrite bind_run in E. unfold gets at 1 in E. rewrite bind_run in E.
  destruct (respects_deepClone (state w) w Hw) as [Hw1 _].
  destruct (deepClone (state w) w) as [[oldState|e] w1]; cbn [snd] in Hw1;
    [|by injection E as _ <-].
  rewrite bind_run in E.
  destruct (respects_deepClone initialState w1 Hw1) as [Hw2 Hout].
  pose proof (sound_initialState w1 Hw1) as Hplain.
  unfold deepClone in *.
  destruct (deepClone_rec stack_limit initialState (heap w1)) as [[fresh h']|e] eqn:Ec;
    [|by injection E as _ <-].
  cbn [fst snd] in *. rewrite bind_run in E. unfold modify at 1 in E.
  assert (Hw3 : sound (with_state fresh (with_heap h' w1))).
  { destruct Hw2 as (Hh & _ & _ & Hwf). split; [done|]. split; [by apply Hout|].
    split; [|done]. unfold state_ok. cbn [heap state with_state with_heap].
    by eapply deepClone_rec_plain. }
  destruct (respects_reset_notifications oldState _ Hw3) as [H _].
  by rewrite E in H.
Qed.

End SoundManager.

(** ** The actions keep the store in order *)

Lemma careful_bind {A B} (m : M A) (f : A -> M B) :
  careful m -> (forall a, careful (f a)) -> careful (bind m f).
Proof.
  intros [Hc Hb] Hf. split.
  - apply contained_bind; [done|]. intros a. apply Hf.
  - intros w Hw. unfold bind. specialize (Hb w Hw).
    destruct (m w) as [[a|e] w']; cbn [snd] in *; [|done].
    by apply (Hf a).
Qed.

Lemma careful_quiet {A} (m : M A) :
  (forall w, history (snd (m w)) = history w /\
             forall l, fst (m w) <> Abrupt (ListenerThrew l)) ->
  careful m.
Proof.
  intros Hm. split.
  - intros w l. by apply Hm.
  - intros w Hw. destruct (Hm w) as [-> _]. done.
Qed.

Lemma careful_ret {A} (a : A) : careful (ret a).
Proof. by apply careful_quiet. Qed.

Lemma careful_gets {A} (f : World -> A) : careful (gets f).
Proof. by apply careful_quiet. Qed.

Lemma careful_lift {A} (c : Completion A) :
  (forall l, c <> Abrupt (ListenerThrew l)) -> careful (lift c).
Proof. intros Hc. by apply careful_quiet. Qed.

Lemma careful_forEach {A} (xs : list A) (body : A -> M unit) :
  (forall x, careful (body x)) -> careful (forEach xs body).
Proof.
  intros Hbody. induction xs as [|x xs IH]; simpl; [apply careful_ret|].
  apply careful_bind; [done|]. by intros _.
Qed.

Lemma careful_drop {A} (m : M A) : careful m -> careful (m ;; ret tt).
Proof. intros Hm. apply careful_bind; [done|]. intros _. apply careful_ret. Qed.

Lemma careful_read_prop (obj : Value) (k : string) : careful (read_prop obj k).
Proof.
  apply careful_quiet. intros w. split; [done|]. intros l. unfold read_prop, get_prop.
  cbn [fst]. repeat case_match; done.
Qed.

Lemma careful_write_prop (obj : Value) (k : string) (v : Value) :
  careful (write_prop obj k v).
Proof.
  split; [apply contained_write_prop|]. intros w Hw.
  by rewrite (keeps_write_prop obj k v w).
Qed.

Lemma careful_new_cell (o : HObj) : careful (new_cell o).
Proof. by apply careful_quiet. Qed.

Lemma careful_own_props (v : Value) : careful (fun w => (own_props (heap w) v, w)).
Proof.
  apply careful_quiet. intros w. split; [done|]. intros l. cbn [fst].
  unfold own_props. repeat case_match; done.
Qed.

Lemma careful_spread_object (v : Value) : careful (spread_object v).
Proof.
  apply careful_bind; [apply careful_own_props|]. intros props. apply careful_new_cell.
Qed.

Lemma careful_Object_keys (v : Value) : careful (Object_keys v).
Proof.
  unfold Object_keys.
  destruct v; try (by apply careful_quiet);
    (apply careful_bind; [apply careful_own_props | intros props; apply careful_ret]).
Qed.

Lemma careful_delete_prop (obj : Value) (k : string) : careful (delete_prop obj k).
Proof.
  apply careful_quiet. intros w. unfold delete_prop.
  repeat case_match; by split.
Qed.

Lemma careful_iterate (v : Value) : careful (iterate v).
Proof.
  apply careful_quiet. intros w. unfold iterate.
  repeat case_match; by split.
Qed.

Lemma careful_array_filter (keep : nat -> Value -> bool) (v : Value) :
  careful (array_filter keep v).
Proof.
  apply careful_quiet. intros w. unfold array_filter.
  repeat case_match; by split.
Qed.

Section CarefulActions.

Context {env : Environment}.

Lemma careful_get (k : string) : careful (get k).
Proof.
  apply careful_bind; [apply careful_gets|]. intros s. apply careful_read_prop.
Qed.

Lemma careful_set (k : string) (value : Value) (now : float) : careful (set k value now).
Proof.
  split; [apply contained_set|]. intros w. apply set_history_bound.
Qed.

Lemma careful_getNested (path : string) : careful (getNested path).
Proof. apply careful_gets. Qed.

Lemma careful_setNested (path : string) (value : Value) : careful (setNested path value).
Proof.
  split; [apply contained_setNested|]. intros w Hw. by rewrite keeps_setNested.
Qed.

Lemma careful_reset : careful reset.
Proof. split; [apply contained_reset|]. intros w Hw. by rewrite keeps_reset. Qed.

Lemma careful_getState : careful getState.
Proof.
  apply careful_bind; [apply careful_gets|]. intros s.
  split; [apply contained_deepClone|]. intros w Hw. by rewrite keeps_deepClone.
Qed.

Lemma careful_call (op : Op) : careful (call op).
Proof.
  destruct op; simpl.
  - apply careful_set.
  - apply careful_setNested.
  - apply careful_quiet. intros w. rewrite subscribe_run. by split.
  - apply careful_quiet. intros w. rewrite unsubscribe_run. by split.
  - apply careful_reset.
  - split; [by intros w l|]. intros w _. simpl. lia.
Qed.

End CarefulActions.

(** ** The actions are careful *)

Ltac unfold_actions :=
  unfold switchTab, getCurrentTab, selectRecord, clearSelectedRecord, getSelectedRecord,
    setHomeOfficeMethod, getHomeOfficeMethod, showModal, hideModal, isModalOpen,
    hideAllModals, setLoading, isLoading, setOverviewData, getOverviewData,
    setIncomeData, getIncomeData, setExpenseData, getExpenseData, setMileageData,
    getMileageData, setUtilityData, getUtilityData, setHomeOfficeData,
    getHomeOfficeData, setTaxSettingsData, getTaxSettingsData, setTaxPaymentsData,
    getTaxPaymentsData, setSavingsGoalsData, getSavingsGoalsData, clearAllData,
    empty_data, addNotification, removeNotification, clearNotifications,
    getNotifications, setFormState, getFormState, clearFormState, clearAllFormStates,
    getFullState, resetState, getStateHistory, clearStateHistory, isAnyDataLoading,
    hasDataForTab, getDataCounts, batchUpdate, getHistory.

Section CarefulPerform.

Context {env : Environment}.

Lemma careful_has_elements (v : Value) : careful (has_elements v).
Proof.
  apply careful_bind; [apply careful_read_prop|]. intros n.
  apply careful_lift. intros l. unfold greater_than, to_number.
  by destruct n.
Qed.

Ltac careful_step :=
  first
    [ apply careful_ret | apply careful_gets | apply careful_get | apply careful_set
    | apply careful_getNested | apply careful_setNested | apply careful_reset
    | apply careful_getState | apply careful_read_prop | apply careful_write_prop
    | apply careful_new_cell | apply careful_spread_object | apply careful_Object_keys
    | apply careful_delete_prop | apply careful_iterate | apply careful_array_filter
    | apply careful_has_elements
    | apply careful_forEach; intros ?
    | apply careful_bind; [|intros ?]
    | match goal with
      | |- careful (if ?b then _ else _) => destruct b
      | |- careful (let '(_, _) := ?x in _) => destruct x
      end ].

Lemma careful_perform (a : Action) : careful (perform a).
Proof.
  destruct a; cbn [perform]; unfold_actions; repeat careful_step.
  - split; [by intros w l|]. intros w _. simpl. lia.
Qed.

Lemma careful_step_of (c : Op + Action) : careful (step c).
Proof. destruct c; [apply careful_call | apply careful_perform]. Qed.

End CarefulPerform.

(** ** The actions keep the invariant of the store *)

Lemma map_snd_imap {A B} (f : nat -> string) (g : A -> B) (l : list A) :
  map snd (imap (fun i x => (f i, g x)) l) = map g l.
Proof.
  revert f. induction l as [|x l IH]; intros f; [done|].
  simpl. f_equal. apply (IH (f ∘ S)).
Qed.

Lemma own_props_outside (w : World) (v : Value) (props : list (string * Value)) :
  sound w -> outside v = true -> own_props (heap w) v = Normal props ->
  Forall (fun x => outside x = true) (map snd props).
Proof.
  intros Hw Hv. unfold own_props.
  destruct v as [| | | |s|l]; try (intros [= <-]; constructor).
  - intros [= <-]. rewrite map_snd_imap. apply Forall_forall. intros x Hx.
    apply list_elem_of_In, in_map_iff in Hx as (c & <- & _). done.
  - destruct (heap w !! l) as [o|] eqn:El; [|done].
    pose proof (sound_cell w l o Hw Hv El) as Hvals.
    destruct o as [ps|items|t].
    + by intros [= <-].
    + intros [= <-]. rewrite (map_snd_imap _ (fun x => x)). by rewrite map_id.
    + intros [= <-]. constructor.
Qed.

Lemma respects_own_props (v : Value) :
  outside v = true ->
  respects sound (fun props => Forall (fun x => outside x = true) (map snd props))
    (fun w => (own_props (heap w) v, w)).
Proof.
  intros Hv w Hw. split; [done|]. cbn [fst]. intros props Hp.
  by eapply own_props_outside.
Qed.

Lemma respects_spread_object (v : Value) :
  outside v = true -> respects sound (fun v' => outside v' = true) (spread_object v).
Proof.
  intros Hv. eapply respects_bind; [by apply respects_own_props|].
  intros props Hprops. by apply respects_new_cell.
Qed.

Lemma respects_Object_keys (v : Value) :
  outside v = true -> respects sound (fun _ => True) (Object_keys v).
Proof.
  intros Hv. unfold Object_keys.
  destruct v; try apply respects_throw;
    (eapply respects_bind; [by apply respects_own_props|]; intros props _;
     by apply respects_ret).
Qed.

Lemma values_of_delete (k : string) (x : Value) (props : list (string * Value)) :
  In x (map snd (prop_delete k props)) -> In x (map snd props).
Proof.
  induction props as [|[k0 v0] rest IH]; [done|]. simpl.
  destruct (String.eqb k0 k); simpl; [auto|]. intros [<-|H]; auto.
Qed.

Lemma respects_delete_prop (obj : Value) (k : string) :
  outside obj = true -> respects sound (fun _ => True) (delete_prop obj k).
Proof.
  intros Hobj w Hw. split; [|done]. unfold delete_prop.
  destruct obj as [| | | | |l]; try done.
  destruct (heap w !! l) as [o|] eqn:El; [|done].
  pose proof (sound_cell w l o Hw Hobj El) as Hvals. rewrite Forall_forall in Hvals.
  destruct o as [props|items|t]; try done.
  cbn [snd]. eapply sound_insert; [done..|].
  simpl. apply Forall_forall. intros x Hx.
  apply Hvals. simpl. by apply list_elem_of_In, values_of_delete, list_elem_of_In in Hx.
Qed.

Lemma respects_iterate (v : Value) :
  outside v = true ->
  respects sound (fun items => Forall (fun x => outside x = true) items) (iterate v).
Proof.
  intros Hv w Hw. unfold iterate.
  destruct v as [| | | |s|l]; try (by split).
  - split; [done|]. intros items [= <-]. apply Forall_forall. intros x Hx.
    apply list_elem_of_In, in_map_iff in Hx as (c & <- & _). done.
  - destruct (heap w !! l) as [o|] eqn:El; [|by split].
    pose proof (sound_cell w l o Hw Hv El) as Hvals.
    destruct o as [ps|items|t]; try (by split).
    split; [done|]. by intros items' [= <-].
Qed.

Lemma filter_imap_In {A} (keep : nat * A -> bool) (items : list A) (x : A) :
  In x (map snd (List.filter keep (imap pair items))) -> In x items.
Proof.
  intros Hx. apply in_map_iff in Hx as ([i y] & <- & Hin).
  apply filter_In in Hin as [Hin _].
  apply list_elem_of_In, elem_of_lookup_imap in Hin as (j & z & [= _ ->] & Hj).
  simpl. apply list_elem_of_In. by eapply list_elem_of_lookup_2.
Qed.

Lemma respects_array_filter (keep : nat -> Value -> bool) (v : Value) :
  outside v = true ->
  respects sound (fun v' => outside v' = true) (array_filter keep v).
Proof.
  intros Hv w Hw. unfold array_filter.
  destruct (array_items (heap w) v) as [items|] eqn:Ei; [|by split].
  apply respects_new_cell; [|done]. simpl.
  unfold array_items in Ei. destruct v as [| | | | |l]; try done.
  destruct (heap w !! l) as [o|] eqn:El; [|done].
  pose proof (sound_cell w l o Hw Hv El) as Hvals. rewrite Forall_forall in Hvals.
  destruct o as [ps|items'|t]; try done. injection Ei as ->.
  apply Forall_forall. intros x Hx. apply Hvals. simpl.
  by apply list_elem_of_In, filter_imap_In, list_elem_of_In in Hx.
Qed.

Lemma respects_has_elements (v : Value) :
  outside v = true -> respects sound (fun _ => True) (has_elements v).
Proof.
  intros Hv. eapply respects_bind; [by apply respects_read_prop|].
  intros n _. by apply respects_lift.
Qed.

Section SoundActions.

Context {env : Environment}.

Lemma respects_getState : respects sound (fun v => outside v = true) getState.
Proof.
  eapply respects_bind; [apply respects_state|]. intros s _. apply respects_deepClone.
Qed.

Lemma respects_true {A} (Q : A -> Prop) (m : M A) :
  respects sound Q m -> respects sound (fun _ => True) m.
Proof. by apply respects_weaken. Qed.

Ltac outside_values :=
  simpl;
  repeat first
    [ assumption | reflexivity
    | apply Forall_nil_2
    | apply Forall_cons_2
    | apply Forall_app_2 ].

Ltac respect_prim :=
  first
    [ apply respects_get | apply respects_state | apply respects_getNested
    | apply respects_deepClone | apply respects_getState | apply respects_reset
    | apply respects_clearHistory | apply respects_deepEqual
    | apply respects_read_prop; assumption
    | apply respects_set; solve [outside_values]
    | apply respects_setNested; assumption
    | apply respects_write_prop; solve [outside_values]
    | apply respects_spread_object; assumption
    | apply respects_Object_keys; assumption
    | apply respects_delete_prop; assumption
    | apply respects_iterate; assumption
    | apply respects_array_filter; assumption
    | apply respects_has_elements; assumption
    | apply respects_new_cell; solve [outside_values]
    | apply respects_gets; done
    | apply respects_ret; solve [outside_values | exact I] ].

Ltac respect_step :=
  first
    [ respect_prim
    | eapply respects_true; respect_prim
    | apply respects_forEach; intros ? _
    | eapply respects_bind; [respect_prim | intros ? ?]
    | eapply (respects_bind sound (fun v : Value => outside v = true)); [|intros ? ?]
    | eapply (respects_bind sound (fun _ => True)); [|intros ? ?]
    | match goal with
      | |- respects _ _ (if ?b then _ else _) => destruct b
      end ].

Lemma respects_batchUpdate (updates : list (string * Value * float)) :
  Forall (fun v => outside v = true) (map (fun u => snd (fst u)) updates) ->
  respects sound (fun _ => True) (batchUpdate updates).
Proof.
  intros Hargs. apply respects_forEach. intros [[key value] now] Hin.
  assert (Hv : outside value = true).
  { rewrite Forall_forall in Hargs. apply Hargs, list_elem_of_In, in_map_iff.
    by exists (key, value, now). }
  destruct (has_dot key); [by apply respects_setNested | by apply respects_set].
Qed.

Lemma respects_perform (a : Action) :
  Forall (fun v => outside v = true) (arguments a) ->
  respects sound (fun _ => True) (perform a).
Proof.
  destruct a; cbn [perform arguments]; intros Hargs;
    try (apply Forall_cons_1 in Hargs as [Hdata _]);
    try (by apply respects_batchUpdate);
    try (match goal with method : option string |- _ => destruct method end);
    unfold_actions; repeat respect_step.
  apply respects_ret. by destruct (truthy _).
Qed.

Lemma respects_call (op : Op) :
  Forall (fun v => outside v = true) (op_arguments op) ->
  respects sound (fun _ => True) (call op).
Proof.
  destruct op; simpl; intros Hargs;
    try (apply Forall_cons_1 in Hargs as [Hdata _]).
  - by apply respects_set.
  - by apply respects_setNested.
  - apply respects_subscribe.
  - apply respects_unsubscribe.
  - apply respects_reset.
  - apply respects_clearHistory.
Qed.

End SoundActions.

(** ** Sessions *)

Lemma outside_cells_checked (rest : Heap) :
  forallb (fun o => forallb outside (values_of o)) rest = true ->
  Forall (fun o => Forall (fun v => outside v = true) (values_of o)) rest.
Proof.
  rewrite forallb_forall. intros H. apply Forall_forall. intros o Ho.
  apply Forall_forall. intros v Hv. apply list_elem_of_In in Ho, Hv.
  specialize (H o Ho). rewrite forallb_forall in H. by apply H.
Qed.

(** A world whose fields have been computed is in order. *)
Lemma sound_checked (w : World) :
  heap w = module_heap ++ drop (List.length module_heap) (heap w) ->
  forallb (fun o => forallb outside (values_of o))
          (drop (List.length module_heap) (heap w)) = true ->
  outside (state w) = true -> state_ok w = true -> well_formed (listeners w) ->
  sound w.
Proof.
  intros Hh Hrest Hs Hok Hwf. split; [|done].
  eexists. split; [exact Hh|]. by apply outside_cells_checked.
Qed.

Lemma sound_boot : sound boot.
Proof.
  apply sound_checked; try (by vm_compute).
  assert (listeners boot = []) as -> by (by vm_compute).
  split; [apply NoDup_nil_2 | apply Forall_nil_2].
Qed.

Section Sessions.

Context {env : Environment}.

Lemma respects_step (c : Op + Action) :
  Forall (fun v => outside v = true)
         (match c with inl op => op_arguments op | inr a => arguments a end) ->
  respects sound (fun _ => True) (step c).
Proof. destruct c; [apply respects_call | apply respects_perform]. Qed.

Lemma run_session_sound (calls : list (Op + Action)) (w : World) :
  sound w -> passes_own_values calls -> sound (run_session calls w).
Proof.
  revert w. induction calls as [|c calls IH]; intros w Hw Hcalls; [done|].
  apply Forall_cons_1 in Hcalls as [Hc Hcalls]. simpl.
  apply IH; [|done]. by apply (respects_step c Hc w Hw).
Qed.

Lemma run_session_bounded (calls : list (Op + Action)) (w : World) :
  List.length (history w) <= 100 ->
  List.length (history (run_session calls w)) <= 100.
Proof.
  revert w. induction calls as [|c calls IH]; intros w Hw; [done|].
  simpl. apply IH. by apply (careful_step_of c).
Qed.

Lemma sound_get (w : World) (k : string) :
  sound w -> exists v, get k w = (Normal v, w).
Proof.
  intros (_ & _ & Hok & _). destruct (is_plain_object _ _ Hok) as (l & props & Hs & El).
  unfold get, bind, gets, read_prop. rewrite Hs, (get_prop_plain _ _ _ _ El). by eexists.
Qed.

Lemma sound_snapshot (w : World) :
  3 <= stack_limit -> sound w ->
  snapshot stack_limit (heap w) initialState = Some initialState_literal.
Proof.
  intros Hd ((rest & -> & _) & _). apply snapshot_app. unfold snapshot.
  assert (H3 : snapshot 3 module_heap initialState = Some initialState_literal)
    by (by vm_compute).
  unfold snapshot in H3.
  destruct (view 3 module_heap initialState) as [r|] eqn:E; [|done].
  by rewrite (view_mono_le 3 _ _ _ _ Hd E).
Qed.

(** X7.  Whatever the clients call, on the manager or through the actions,
    with values of their own, the store stays in order: the exported
    [initialState] is never written to and nothing refers to it, the state
    is an object (so that [get] never raises), the registry has no repeated
    key, no repeated listener and no key without a listener, and the history
    has at most a hundred entries. *)
Theorem sessions_keep_the_store_in_order (calls : list (Op + Action)) (w : World) :
  sound w ->
  List.length (history w) <= 100 ->
  passes_own_values calls ->
  let w' := run_session calls w in
  sound w' /\
  List.length (history w') <= 100 /\
  (forall k, exists v, get k w' = (Normal v, w')) /\
  (3 <= stack_limit ->
   snapshot stack_limit (heap w') initialState = Some initialState_literal).
Proof.
  intros Hw Hh Hcalls. cbv zeta.
  pose proof (run_session_sound calls w Hw Hcalls) as Hw'.
  split; [done|]. split; [by apply run_session_bounded|].
  split; [intros k; by apply sound_get|].
  intros Hd. by apply sound_snapshot.
Qed.

(** X8.  No action lets the exception of a listener out, and every action
    leaves at most a hundred entries in a history of at most a hundred. *)
Theorem actions_are_careful (a : Action) (w : World) :
  (forall l, fst (perform a w) <> Abrupt (ListenerThrew l)) /\
  (List.length (history w) <= 100 ->
   List.length (history (snd (perform a w))) <= 100).
Proof.
  destruct (careful_perform a) as [Hc Hb]. split; [intros l; apply Hc | apply Hb].
Qed.


End Sessions.

(** ** Sessions on the running instance *)

(** X7 on the running instance, through a session of calls. *)
Lemma sessions_keep_the_store_in_order_witness :
  passes_own_values session /\
  let w' := run_session (env := quiet) session boot in
  sound w' /\ List.length (history w') <= 100 /\
  exists v, get "activeTab" w' = (Normal v, w').
Proof.
  assert (Hcalls : passes_own_values session) by (repeat constructor).
  assert (Hh : List.length (history boot) <= 100) by (vm_compute; lia).
  split; [exact Hcalls|].
  destruct (sessions_keep_the_store_in_order (env := quiet) session boot
              sound_boot Hh Hcalls) as (Hs & Hb & Hget & _).
  cbv zeta. split; [exact Hs|]. split; [exact Hb|]. exact (Hget "activeTab").
Defined.

(** X8 on the running instance with a listener that throws. *)
Lemma actions_are_careful_witness :
  let w := snd (subscribe "modalStates" 1 boot) in
  List.length (history w) <= 100 /\
  fst (perform (env := faulty) (ShowModal "record" 1%float) w) = Normal tt /\
  List.length (history (snd (perform (env := faulty) (ShowModal "record" 1%float) w))) <= 100.
Proof.
  cbv zeta.
  assert (Hh : List.length (history (snd (subscribe "modalStates" 1 boot))) <= 100)
    by (vm_compute; lia).
  split; [exact Hh|]. split; [by vm_compute|].
  destruct (actions_are_careful (env := faulty) (ShowModal "record" 1%float)
              (snd (subscribe "modalStates" 1 boot))) as [_ Hb].
  exact (Hb Hh).
Defined.


(** ** Storing a new object or array under a key *)


Lemma strict_eq_ref (l l' : loc) : strict_eq (VRef l) (VRef l') = true <-> l = l'.
Proof. simpl. by rewrite Nat.eqb_eq. Qed.

Section Store.

Context {env : Environment}.









End Store.

(** ** What the store looks like after a copy was put in *)

Section Stored.

Context {env : Environment}.






End Stored.

(** ** Modals and form states *)






Section Modals.

Context {env : Environment}.







End Modals.

(** ** Modals and form states on the running instance *)






(** ** Notifications *)




Section Notifications.

Context {env : Environment}.







End Notifications.

(** ** Clearing *)

Section Clearing.

Context {env : Environment}.



End Clearing.


(** ** Notifications and clearing on the running instance *)






(** ** Storing a primitive under a key *)

Section Primitives.

Context {env : Environment}.




End Primitives.

(** ** The selected record *)




Section Records.

Context {env : Environment}.



End Records.


(** ** The selected record on the running instance *)



(** ** Clearing all data *)

Lemma lookup_app_plus (h cells : Heap) (i : nat) :
  (h ++ cells) !! (List.length h + i) = cells !! i.
Proof. rewrite lookup_app_r by lia. f_equal. lia. Qed.

Lemma empty_data_run (w : World) :
  empty_data w
  = (Normal (VRef (List.length (heap w) + 6)),
     with_heap (heap w ++ empty_data_cells (List.length (heap w))) w).
Proof.
  unfold empty_data, bind, new_cell, alloc, with_heap. cbn [heap state listeners history trace].
  rewrite !length_app. simpl List.length.
  rewrite <- !app_assoc. simpl app. unfold empty_data_cells.
  replace (List.length (heap w) + 1 + 1) with (List.length (heap w) + 2) by lia.
  replace (List.length (heap w) + 2 + 1) with (List.length (heap w) + 3) by lia.
  replace (List.length (heap w) + 3 + 1) with (List.length (heap w) + 4) by lia.
  replace (List.length (heap w) + 4 + 1) with (List.length (heap w) + 5) by lia.
  replace (List.length (heap w) + 5 + 1) with (List.length (heap w) + 6) by lia.
  done.
Qed.

Section Data.

Context {env : Environment}.

(** A path of one segment: the leaf is written on the state itself. *)
Lemma setNested_top (k : string) (value : Value) (w : World) :
  has_dot k = false -> k <> "" ->
  setNested k value w
  = (let* s := gets state in
     let* oldValue := read_prop s k in
     write_prop s k value ;;
     notifyListeners k value oldValue) w.
Proof.
  intros Hdot Hne. unfold setNested. rewrite (split_dot_no_dot _ Hdot).
  change (pop [k]) with (Some k, @nil string). cbv beta iota.
  apply String.eqb_neq in Hne. by rewrite Hne.
Qed.

(** X20.  After [clearAllData] no tab has data: [hasDataForTab] answers
    [false] for every tab name, the six collections are empty (all counts
    are zero) and the overview, the home office record and the tax settings
    are gone, although the literal does not name them.  The call goes
    through [setNested]: it is not recorded in the history, and it is
    announced to the listeners of ['data'] only, not to those of
    ['data.income'] and the like. *)
Theorem clearAllData_leaves_no_data (w : World) :
  state_ok w = true ->
  exists (w' : World) (fresh old : Value),
    clearAllData w = (Normal tt, w') /\
    get "data" w = (Normal old, w) /\
    get "data" w' = (Normal fresh, w') /\
    (forall tabName, hasDataForTab tabName w' = (Normal false, w')) /\
    getOverviewData w' = (Normal VUndefined, w') /\
    getHomeOfficeData w' = (Normal VUndefined, w') /\
    getTaxSettingsData w' = (Normal VUndefined, w') /\
    getDataCounts w'
    = (Normal (VRef (List.length (heap w'))),
       with_heap (heap w' ++
                  [OObject [ ("income", VNum 0); ("expenses", VNum 0);
                             ("mileage", VNum 0); ("utilities", VNum 0);
                             ("taxPayments", VNum 0); ("savingsGoals", VNum 0) ]]) w') /\
    history w' = history w /\
    trace w' = trace w ++ notify_events "data" fresh old (registered "data" w) /\
    listeners w' = listeners w /\ state w' = state w.
Proof.
  intros Hok. destruct (is_plain_object _ _ Hok) as (root & props & Hs & El).
  set (n := List.length (heap w)).
  set (old := default VUndefined (prop_lookup "data" props)).
  set (h' := <[root := OObject (prop_update "data" (VRef (n + 6)) props)]>
               (heap w ++ empty_data_cells n)).
  set (w' := emits (notify_events "data" (VRef (n + 6)) old (registered "data" w))
               (with_heap h' w)).
  assert (Hroot : root < n) by (by eapply lookup_lt_Some).
  assert (Hrun : clearAllData w = (Normal tt, w')).
  { unfold clearAllData. rewrite bind_run, empty_data_run. fold n.
    rewrite (setNested_top "data") by done.
    rewrite bind_run. unfold gets at 1. cbn [state with_heap].
    rewrite bind_run. unfold read_prop at 1. cbn [heap with_heap]. rewrite Hs.
    rewrite (get_prop_plain _ _ _ _ (lookup_app_l_Some _ _ _ _ El)). fold old.
    rewrite bind_run.
    rewrite (write_prop_run _ _ _ _ h').
    2: { cbn [heap with_heap]. unfold set_prop.
         by rewrite (lookup_app_l_Some _ _ _ _ El). }
    rewrite with_heap_twice. rewrite notifyListeners_run. done. }
  assert (Hcell : heap w' !! root = Some (OObject (prop_update "data" (VRef (n + 6)) props))).
  { unfold w', h'. cbn [heap emits with_heap]. apply list_lookup_insert_eq.
    rewrite length_app. fold n. lia. }
  assert (Hnew : forall i, heap w' !! (n + i) = empty_data_cells n !! i).
  { intros i. unfold w', h'. cbn [heap emits with_heap].
    rewrite list_lookup_insert_ne by lia. apply lookup_app_plus. }
  assert (Hdata : get_prop_opt (heap w') (state w') "data" = VRef (n + 6)).
  { unfold get_prop_opt. replace (state w') with (VRef root) by done.
    by rewrite (get_prop_plain _ _ _ _ Hcell), prop_lookup_update_eq. }
  assert (Hfield : forall x,
            get_prop_opt (heap w') (VRef (n + 6)) x
            = default VUndefined
                (prop_lookup x
                   [ ("income", VRef n); ("expenses", VRef (n + 1));
                     ("mileage", VRef (n + 2)); ("utilities", VRef (n + 3));
                     ("taxPayments", VRef (n + 4)); ("savingsGoals", VRef (n + 5)) ])).
  { intros x. unfold get_prop_opt. by rewrite (get_prop_plain _ _ _ _ (Hnew 6)). }
  assert (Hnested : forall x,
            has_dot x = false ->
            getNested ("data." ++ x)%string w'
            = (Normal (get_prop_opt (heap w') (VRef (n + 6)) x), w')).
  { intros x Hx. unfold getNested, gets. unfold getNestedFromState.
    change ("data." ++ x)%string with ("data" ++ "." ++ x)%string.
    rewrite split_dot_app, fold_left_app.
    change (split_dot "data") with ["data"]. cbn [fold_left]. rewrite Hdata.
    by rewrite (split_dot_no_dot _ Hx). }
  assert (Hlength : forall i, i < 6 ->
            read_prop (VRef (n + i)) "length" w' = (Normal (VNum 0), w')).
  { intros i Hi. unfold read_prop, get_prop. rewrite Hnew.
    by do 6 (destruct i as [|i]; [done|]); lia. }
  assert (Hempty : forall i, i < 6 -> has_elements (VRef (n + i)) w' = (Normal false, w')).
  { intros i Hi. unfold has_elements. by rewrite bind_run, (Hlength i Hi). }
  assert (Hn0 : n = n + 0) by lia.
  assert (Hincome : getIncomeData w' = (Normal (VRef (n + 0)), w')).
  { unfold getIncomeData. rewrite bind_run, (Hnested "income" eq_refl : getNested "data.income" w' = _), Hfield. simpl.
    by rewrite <- Hn0. }
  assert (Hexpenses : getExpenseData w' = (Normal (VRef (n + 1)), w')).
  { unfold getExpenseData. by rewrite bind_run, (Hnested "expenses" eq_refl : getNested "data.expenses" w' = _), Hfield. }
  assert (Hmileage : getMileageData w' = (Normal (VRef (n + 2)), w')).
  { unfold getMileageData. by rewrite bind_run, (Hnested "mileage" eq_refl : getNested "data.mileage" w' = _), Hfield. }
  assert (Hutilities : getUtilityData w' = (Normal (VRef (n + 3)), w')).
  { unfold getUtilityData. by rewrite bind_run, (Hnested "utilities" eq_refl : getNested "data.utilities" w' = _), Hfield. }
  assert (Htax : getTaxPaymentsData w' = (Normal (VRef (n + 4)), w')).
  { unfold getTaxPaymentsData. by rewrite bind_run, (Hnested "taxPayments" eq_refl : getNested "data.taxPayments" w' = _), Hfield. }
  assert (Hgoals : getSavingsGoalsData w' = (Normal (VRef (n + 5)), w')).
  { unfold getSavingsGoalsData. by rewrite bind_run, (Hnested "savingsGoals" eq_refl : getNested "data.savingsGoals" w' = _), Hfield. }
  assert (Hoverview : getOverviewData w' = (Normal VUndefined, w')).
  { unfold getOverviewData. by rewrite (Hnested "overview" eq_refl : getNested "data.overview" w' = _), Hfield. }
  assert (Hoffice : getHomeOfficeData w' = (Normal VUndefined, w')).
  { unfold getHomeOfficeData. by rewrite (Hnested "homeOffice" eq_refl : getNested "data.homeOffice" w' = _), Hfield. }
  assert (Hsettings : getTaxSettingsData w' = (Normal VUndefined, w')).
  { unfold getTaxSettingsData. by rewrite (Hnested "taxSettings" eq_refl : getNested "data.taxSettings" w' = _), Hfield. }
  exists w', (VRef (n + 6)), old. split; [exact Hrun|].
  split.
  { unfold get, bind, gets, read_prop. by rewrite Hs, (get_prop_plain _ _ _ _ El). }
  split.
  { unfold get, bind, gets, read_prop. replace (state w') with (VRef root) by done.
    by rewrite (get_prop_plain _ _ _ _ Hcell), prop_lookup_update_eq. }
  split.
  { intros tabName. unfold hasDataForTab.
    destruct (String.eqb tabName "overview"); [by rewrite bind_run, Hoverview|].
    destruct (String.eqb tabName "income"); [by rewrite bind_run, Hincome, Hempty by lia|].
    destruct (String.eqb tabName "expenses");
      [by rewrite bind_run, Hexpenses, Hempty by lia|].
    destruct (String.eqb tabName "deductions").
    { rewrite bind_run, Hmileage, bind_run, Hempty by lia.
      rewrite bind_run, Hutilities, bind_run, Hempty by lia.
      by rewrite bind_run, Hoffice. }
    destruct (String.eqb tabName "taxes").
    { rewrite bind_run, Hsettings. cbn [truthy]. cbv iota.
      by rewrite bind_run, Htax, Hempty by lia. }
    destruct (String.eqb tabName "goals"); [by rewrite bind_run, Hgoals, Hempty by lia|].
    done. }
  do 3 (split; [done|]).
  split; [|by repeat split].
  unfold getDataCounts.
  rewrite bind_run, bind_run, Hincome, Hlength by lia.
  rewrite bind_run, bind_run, Hexpenses, Hlength by lia.
  rewrite bind_run, bind_run, Hmileage, Hlength by lia.
  rewrite bind_run, bind_run, Hutilities, Hlength by lia.
  rewrite bind_run, bind_run, Htax, Hlength by lia.
  rewrite bind_run, bind_run, Hgoals, Hlength by lia.
  done.
Qed.

End Data.

(** X20 on the instance with listeners, once an overview is there: the
    overview is gone afterwards, and the listener of ['data.income'] has not
    been called. *)
Lemma clearAllData_leaves_no_data_witness :
  let w := snd (setOverviewData (env := quiet) (VNum 1) watched) in
  hasDataForTab "overview" w = (Normal true, w) /\
  registered "data.income" w = [3] /\
  exists w',
    clearAllData (env := quiet) w = (Normal tt, w') /\
    hasDataForTab "overview" w' = (Normal false, w') /\
    hasDataForTab "income" w' = (Normal false, w') /\
    trace w' = trace w /\ history w' = history w.
Proof.
  cbv zeta.
  set (w := snd (setOverviewData (env := quiet) (VNum 1) watched)).
  split; [by vm_compute|]. split; [by vm_compute|].
  assert (Hok : state_ok w = true) by (by vm_compute).
  destruct (clearAllData_leaves_no_data (env := quiet) w Hok)
    as (w' & fresh & old & Hrun & _ & _ & Htabs & _ & _ & _ & _ & Hh & Ht & _).
  exists w'. split; [exact Hrun|]. split; [apply Htabs|]. split; [apply Htabs|].
  split; [|exact Hh]. rewrite Ht.
  assert (Hnone : registered "data" w = []) by (by vm_compute).
  rewrite Hnone. change (notify_events "data" fresh old []) with (@nil Event).
  by rewrite app_nil_r.
Defined.

(** ** Formatters and validators *)

Lemma length_append (a b : string) :
  String.length (a ++ b)%string = String.length a + String.length b.
Proof. induction a as [|c a IH]; simpl; [done|]. by rewrite IH. Qed.

Lemma length_substring (n : nat) (s : string) :
  n <= String.length s -> String.length (String.substring 0 n s) = n.
Proof.
  revert n. induction s as [|c s IH]; intros [|n]; simpl; try done; try lia.
  intros Hn. rewrite IH; lia.
Qed.

Lemma substring_all (s : string) : String.substring 0 (String.length s) s = s.
Proof. induction s as [|c s IH]; simpl; [done|]. by rewrite IH. Qed.

Lemma substring_nothing (s : string) : String.substring 0 0 s = "".
Proof. by destruct s. Qed.

Lemma substring_skip (p rest : string) (m : nat) :
  String.substring (String.length p) m (p ++ rest)%string = String.substring 0 m rest.
Proof. induction p as [|c p IH]; simpl; [done|]. exact IH. Qed.

Lemma prefix_append (p rest : string) : String.prefix p (p ++ rest)%string = true.
Proof.
  induction p as [|c p IH]; simpl; [by destruct rest|].
  destruct (ascii_dec c c); [exact IH | done].
Qed.

Lemma replace_first_unfold (p r s : string) :
  replace_first p r s
  = if String.prefix p s
    then (r ++ String.substring (String.length p) (String.length s - String.length p) s)%string
    else match s with
         | EmptyString => EmptyString
         | String c rest => String c (replace_first p r rest)
         end.
Proof. by destruct s. Qed.

Lemma replace_first_prefix (p r rest : string) :
  replace_first p r (p ++ rest)%string = (r ++ rest)%string.
Proof.
  rewrite replace_first_unfold, prefix_append, length_append.
  replace (String.length p + String.length rest - String.length p)
    with (String.length rest) by lia.
  by rewrite substring_skip, substring_all.
Qed.

Lemma replace_each_same (class : ascii -> bool) (s : string) :
  replace_each class (fun matched => String matched EmptyString) s = s.
Proof.
  induction s as [|c s IH]; simpl; [done|]. rewrite IH. by destruct (class c).
Qed.

Lemma trim_start_blank (s : string) : trim_start s = "" <-> blank s = true.
Proof.
  induction s as [|c s IH]; simpl; [done|].
  destruct (is_space c); simpl; [exact IH | done].
Qed.

Lemma trim_end_blank (s : string) : trim_end s = "" <-> blank s = true.
Proof.
  induction s as [|c s IH]; simpl; [done|].
  destruct (trim_end s) eqn:E.
  - destruct (is_space c); simpl; [|done]. split; [intros _; by apply IH | done].
  - split; [done|]. intros [_ Hb]%andb_prop. by apply IH in Hb.
Qed.

Lemma trim_start_keeps_visible (s : string) :
  blank s = false -> blank (trim_start s) = false.
Proof.
  induction s as [|c s IH]; simpl; [done|].
  destruct (is_space c) eqn:E; simpl; [exact IH|]. by rewrite E.
Qed.

Lemma trim_blank (s : string) : trim s = "" <-> blank s = true.
Proof.
  unfold trim. rewrite trim_end_blank. split.
  - intros H. destruct (blank s) eqn:E; [done|].
    by rewrite (trim_start_keeps_visible s E) in H.
  - intros H. apply trim_start_blank in H. by rewrite H.
Qed.

Lemma length_zero (s : string) : (String.length s =? 0)%nat = true <-> s = "".
Proof. destruct s; simpl; split; done. Qed.







(** X21.  [truncate] returns a text that fits as it is.  A longer text is
    cut to its first [maxLength - 3] characters followed by three dots,
    which makes [maxLength] characters, provided [maxLength] is 3 at least;
    below that the result is the three dots alone, longer than asked
    for. *)
Theorem truncate_fits_from_three_on (text : string) (maxLength : Z) :
  ((Z.of_nat (String.length text) <= maxLength)%Z ->
   Formatters.truncate text maxLength = text) /\
  ((maxLength < Z.of_nat (String.length text))%Z -> (3 <= maxLength)%Z ->
   Formatters.truncate text maxLength
   = (String.substring 0 (Z.to_nat (maxLength - 3)) text ++ "...")%string /\
   Z.of_nat (String.length (Formatters.truncate text maxLength)) = maxLength) /\
  ((maxLength < Z.of_nat (String.length text))%Z -> (maxLength < 3)%Z ->
   Formatters.truncate text maxLength = "...").
Proof.
  unfold Formatters.truncate, substring. split; [|split].
  - intros H. apply Z.leb_le in H. by rewrite H.
  - intros Hlong Hthree.
    assert ((Z.of_nat (String.length text) <=? maxLength)%Z = false) as ->
      by (apply Z.leb_gt; lia).
    replace (Z.min (Z.max 0 0) (Z.of_nat (String.length text))) with 0%Z by lia.
    replace (Z.min (Z.max (maxLength - 3) 0) (Z.of_nat (String.length text)))
      with (maxLength - 3)%Z by lia.
    replace (Z.min 0 (maxLength - 3)) with 0%Z by lia.
    replace (Z.max 0 (maxLength - 3) - 0)%Z with (maxLength - 3)%Z by lia.
    split; [done|]. rewrite length_append, length_substring by lia. simpl. lia.
  - intros Hlong Hsmall.
    assert ((Z.of_nat (String.length text) <=? maxLength)%Z = false) as ->
      by (apply Z.leb_gt; lia).
    replace (Z.min (Z.max 0 0) (Z.of_nat (String.length text))) with 0%Z by lia.
    replace (Z.min (Z.max (maxLength - 3) 0) (Z.of_nat (String.length text)))
      with 0%Z by lia.
    simpl. by rewrite substring_nothing.
Qed.

(** X22.  [serviceType] is [trim]: the replacement ['$1'] puts back every
    capital letter it matched, so no space is put before the capitals. *)
Theorem serviceType_only_trims (serviceType : string) :
  Formatters.serviceType serviceType = trim serviceType.
Proof. unfold Formatters.serviceType. by rewrite replace_each_same. Qed.


(** X24.  A required field is valid exactly when it holds a character
    that is not white space, and a business purpose exactly when it does
    and is 10 characters long at least, white space counted: nine spaces
    and a letter pass. *)
Theorem required_fields_want_a_visible_character (value fieldName : string) :
  isValid (Validators.validateRequired value fieldName) = negb (blank value) /\
  (blank value = true ->
   message (Validators.validateRequired value fieldName)
   = Some (fieldName ++ " is required")%string) /\
  isValid (Validators.validateBusinessPurpose value)
  = negb (blank value) && (10 <=? String.length value)%nat /\
  (blank value = false -> String.length value < 10 ->
   message (Validators.validateBusinessPurpose value)
   = Some "Business purpose must be at least 10 characters for IRS compliance").
Proof.
  assert (Hreq : forall name,
            Validators.validateRequired value name
            = if blank value then mkResult false (Some (name ++ " is required")%string)
              else mkResult true None).
  { intros name. unfold Validators.validateRequired.
    destruct (blank value) eqn:Eb.
    - apply trim_blank in Eb. rewrite Eb. simpl. by rewrite orb_true_r.
    - assert (value <> "") by (by intros ->).
      assert (trim value <> "") by (rewrite trim_blank; congruence).
      assert (String.eqb value "" = false) as -> by (by apply String.eqb_neq).
      assert ((String.length (trim value) =? 0)%nat = false) as ->; [|done].
      destruct (String.length (trim value) =? 0)%nat eqn:E; [|done].
      by apply length_zero in E. }
  split; [rewrite Hreq; by destruct (blank value)|].
  split; [intros Hb; by rewrite Hreq, Hb|].
  unfold Validators.validateBusinessPurpose. rewrite Hreq.
  destruct (blank value) eqn:Eb; cbn [isValid negb andb message]; [by split|].
  destruct (String.length value <? 10)%nat eqn:El; cbn [isValid message].
  - apply Nat.ltb_lt in El. split; [|done]. symmetry. apply Nat.leb_gt. lia.
  - apply Nat.ltb_ge in El. split; [|intros _ ?; lia]. symmetry. by apply Nat.leb_le.
Qed.

(** ** Numbers that are not numbers *)

(** [NaN] is neither less nor greater than anything. *)
Lemma float_NaN_ltb (x y : float) :
  PrimFloat.eqb x x = false -> PrimFloat.ltb x y = false /\ PrimFloat.ltb y x = false.
Proof.
  rewrite !FloatAxioms.eqb_spec, !FloatAxioms.ltb_spec. unfold SFeqb, SFltb.
  destruct (Prim2SF x) as [sx|sx| |sx mx ex] eqn:Ex; simpl.
  - done.
  - by destruct sx.
  - intros _. split; [done|]. by destruct (Prim2SF y).
  - destruct sx; rewrite Z.compare_refl, Pos.compare_cont_refl; done.
Qed.

Section Amounts.

Variable currency : float -> string.
Variable number_to_string : float -> string.

(** X25.  [validateCurrency] refuses [NaN] whatever the bounds are;
    [validatePercentage], which has no such test, accepts [NaN] whatever
    the bounds are. *)
Theorem validatePercentage_accepts_NaN
    (x min pmin pmax : float) (max : option float) :
  PrimFloat.eqb x x = false ->
  Validators.validateCurrency currency x min max
  = mkResult false (Some "Amount must be a valid number") /\
  Validators.validatePercentage number_to_string x pmin pmax = mkResult true None.
Proof.
  intros Hnan. split.
  - unfold Validators.validateCurrency. by rewrite Hnan.
  - unfold Validators.validatePercentage.
    destruct (float_NaN_ltb x pmin Hnan) as [-> _].
    by destruct (float_NaN_ltb x pmax Hnan) as [_ ->].
Qed.

(** X26.  [validateMileage] accepts what [validateCurrency] accepts
    between a tenth and ten thousand, and rewords its message: the amount
    becomes miles, the bound stays formatted as a sum of money.  The
    fallback ['Invalid mileage'] is never used. *)
Theorem validateMileage_rewords_the_amount (miles : float) :
  isValid (Validators.validateMileage currency miles)
  = isValid (Validators.validateCurrency currency miles tenth (Some 10000%float)) /\
  (PrimFloat.eqb miles miles = false ->
   message (Validators.validateMileage currency miles)
   = Some "Miles must be a valid number") /\
  (PrimFloat.ltb miles tenth = true ->
   message (Validators.validateMileage currency miles)
   = Some ("Miles must be at least " ++ currency tenth)%string) /\
  (PrimFloat.ltb miles tenth = false -> PrimFloat.ltb 10000 miles = true ->
   message (Validators.validateMileage currency miles)
   = Some ("Miles cannot exceed " ++ currency 10000%float)%string) /\
  message (Validators.validateMileage currency miles) <> Some "Invalid mileage".
Proof.
  unfold Validators.validateMileage, Validators.validateCurrency.
  destruct (PrimFloat.eqb miles miles) eqn:Enan; cbn [negb].
  2: { cbn [isValid message negb].
       destruct (float_NaN_ltb miles tenth Enan) as [Hlt _].
       destruct (float_NaN_ltb miles 10000%float Enan) as [_ Hgt].
       rewrite Hlt, Hgt. by repeat split. }
  destruct (PrimFloat.ltb miles tenth) eqn:Elow.
  { cbn [isValid message negb].
    change ("Amount must be at least " ++ currency tenth)%string
      with ("Amount" ++ (" must be at least " ++ currency tenth))%string.
    rewrite replace_first_prefix.
    change (String.eqb ("Miles" ++ " must be at least " ++ currency tenth) "") with false.
    cbv iota.
    by repeat split. }
  destruct (PrimFloat.ltb 10000 miles) eqn:Ehigh.
  { cbn [isValid message negb].
    change ("Amount cannot exceed " ++ currency 10000%float)%string
      with ("Amount" ++ (" cannot exceed " ++ currency 10000%float))%string.
    rewrite replace_first_prefix.
    change (String.eqb ("Miles" ++ " cannot exceed " ++ currency 10000%float) "") with false.
    cbv iota. by repeat split. }
  cbn [isValid message negb]. by repeat split.
Qed.

End Amounts.


(** ** Formatters and validators at work *)

(** X21: a long label at 10 and at 2 characters. *)
Lemma truncate_fits_from_three_on_witness :
  Formatters.truncate "Quarterly taxes" 10 = "Quarter..." /\
  Formatters.truncate "Quarterly taxes" 15 = "Quarterly taxes" /\
  Formatters.truncate "Quarterly taxes" 2 = "...".
Proof.
  destruct (truncate_fits_from_three_on "Quarterly taxes" 10) as (_ & Hcut & _).
  destruct (truncate_fits_from_three_on "Quarterly taxes" 15) as (Hfit & _ & _).
  destruct (truncate_fits_from_three_on "Quarterly taxes" 2) as (_ & _ & Hdots).
  split; [|split].
  - destruct Hcut as [-> _]; [simpl; lia..|]. reflexivity.
  - apply Hfit. simpl. lia.
  - apply Hdots; simpl; lia.
Defined.

(** X24: white space alone is refused; a letter and nine spaces pass as a
    business purpose. *)
Lemma required_fields_want_a_visible_character_witness :
  Validators.validateRequired "   " "Vendor" = mkResult false (Some "Vendor is required") /\
  isValid (Validators.validateBusinessPurpose "a         ") = true /\
  message (Validators.validateBusinessPurpose "lunch")
  = Some "Business purpose must be at least 10 characters for IRS compliance".
Proof.
  destruct (required_fields_want_a_visible_character "   " "Vendor") as (_ & Hmsg & _).
  destruct (required_fields_want_a_visible_character "a         " "") as (_ & _ & Hvalid & _).
  destruct (required_fields_want_a_visible_character "lunch" "") as (_ & _ & _ & Hshort).
  split; [|split].
  - specialize (Hmsg eq_refl). reflexivity.
  - rewrite Hvalid. reflexivity.
  - apply Hshort; [reflexivity | simpl; lia].
Defined.

(** X25 on [NaN] itself, with the default bounds. *)
Lemma validatePercentage_accepts_NaN_witness :
  PrimFloat.eqb nan nan = false /\
  isValid (Validators.validateCurrency (fun _ => "$0.00") nan 0 None) = false /\
  isValid (Validators.validatePercentage (fun _ => "0") nan 0 100) = true.
Proof.
  split; [reflexivity|].
  destruct (validatePercentage_accepts_NaN (fun _ => "$0.00") (fun _ => "0")
              nan 0%float 0%float 100%float None eq_refl) as [-> ->].
  by split.
Defined.

(** X26 on no miles at all, with a formatter that prints the bound. *)
Lemma validateMileage_rewords_the_amount_witness :
  PrimFloat.ltb 0 tenth = true /\
  Validators.validateMileage (fun _ => "$0.10") 0
  = mkResult false (Some "Miles must be at least $0.10").
Proof.
  split; [reflexivity|].
  destruct (validateMileage_rewords_the_amount (fun _ => "$0.10") 0%float)
    as (Hvalid & _ & Hlow & _).
  specialize (Hlow eq_refl).
  destruct (Validators.validateMileage (fun _ => "$0.10") 0) as [valid msg].
  cbn [isValid message] in *. rewrite Hvalid, Hlow. reflexivity.
Defined.

(** ** The regular expression of [validateEmail] *)

Lemma append_nil_r (s : string) : (s ++ "")%string = s.
Proof. induction s as [|c s IH]; [done|]. change (String c (s ++ "")%string = String c s). by rewrite IH. Qed.

Lemma append_assoc (a b c : string) : ((a ++ b) ++ c)%string = (a ++ (b ++ c))%string.
Proof.
  induction a as [|x a IH]; [done|].
  change (String x ((a ++ b) ++ c)%string = String x (a ++ (b ++ c))%string). by rewrite IH.
Qed.

Lemma append_empty (a b : string) : (a ++ b)%string = "" -> a = "" /\ b = "".
Proof.
  destruct a as [|x a].
  - change (("" ++ b)%string) with b. by intros ->.
  - change ((String x a ++ b)%string) with (String x (a ++ b)%string). done.
Qed.

Lemma append_cons (a b : string) (c : ascii) (s : string) :
  (a ++ b)%string = String c s ->
  (a = "" /\ b = String c s) \/ exists a', a = String c a' /\ s = (a' ++ b)%string.
Proof.
  destruct a as [|x a]; [by left|]. intros H.
  change (String x (a ++ b)%string = String c s) in H. injection H as -> <-.
  right. by exists a.
Qed.

Lemma nullable_lang (r : regex) : nullable r = true <-> lang r "".
Proof.
  induction r as [| |class|a IHa b IHb|a IHa b IHb|a IHa]; simpl.
  - split; [done|]. inversion 1.
  - split; [constructor|done].
  - split; [done|]. inversion 1.
  - rewrite orb_true_iff, IHa, IHb. split.
    + intros [?|?]; [by apply lang_alt_l | by apply lang_alt_r].
    + inversion 1; auto.
  - rewrite andb_true_iff, IHa, IHb. split.
    + intros [Ha Hb]. exact (lang_seq a b "" "" Ha Hb).
    + inversion 1 as [| | | |? ? s t Hs Ht Hr Hst| |]; subst.
      by apply append_empty in Hst as [-> ->].
  - split; [constructor|done].
Qed.

(** A repetition that starts with [c] starts with a round that does. *)
Lemma lang_star_cons (a : regex) (c : ascii) (s : string) :
  lang (Star a) (String c s) ->
  exists s1 s2, s = (s1 ++ s2)%string /\ lang a (String c s1) /\ lang (Star a) s2.
Proof.
  intros H. remember (Star a) as r eqn:Er. remember (String c s) as cs eqn:Es.
  revert s Es. induction H as [| | | | | |a' u t Hu _ Ht IHt]; try done.
  injection Er as ->. intros s Es.
  destruct (append_cons _ _ _ _ Es) as [[-> ->]|(u' & -> & ->)].
  - by apply IHt.
  - by exists u', t.
Qed.

Lemma derive_lang (r : regex) (c : ascii) (s : string) :
  lang (derive c r) s <-> lang r (String c s).
Proof.
  revert s. induction r as [| |class|a IHa b IHb|a IHa b IHb|a IHa]; intros s; simpl.
  - split; inversion 1.
  - split; inversion 1.
  - destruct (class c) eqn:E.
    + split.
      * inversion 1; subst. by constructor.
      * inversion 1; subst. constructor.
    + split; [inversion 1|]. inversion 1; subst. congruence.
  - split.
    + inversion 1; subst; [apply lang_alt_l | apply lang_alt_r]; by (apply IHa || apply IHb).
    + inversion 1; subst; [apply lang_alt_l | apply lang_alt_r]; by (apply IHa || apply IHb).
  - assert (Hfirst : forall t, lang (Seq (derive c a) b) t -> lang (Seq a b) (String c t)).
    { inversion 1 as [| | | |? ? u v Hu Hv| |]; subst.
      apply IHa in Hu. exact (lang_seq a b (String c u) v Hu Hv). }
    assert (Hsplit : lang (Seq a b) (String c s) ->
              lang (Seq (derive c a) b) s \/ (lang a "" /\ lang b (String c s))).
    { inversion 1 as [| | | |? ? u v Hu Hv Hr Huv| |]; subst.
      destruct (append_cons _ _ _ _ Huv) as [[-> ->]|(u' & -> & ->)].
      - by right.
      - left. apply lang_seq; [by apply IHa | done]. }
    destruct (nullable a) eqn:En.
    + split.
      * inversion 1; subst; [by apply Hfirst|].
        apply nullable_lang in En.
        exact (lang_seq a b "" (String c s) En (proj1 (IHb s) ltac:(done))).
      * intros H. destruct (Hsplit H) as [?|[_ Hb]]; [by apply lang_alt_l|].
        apply lang_alt_r. by apply IHb.
    + split; [apply Hfirst|].
      intros H. destruct (Hsplit H) as [?|[Ha _]]; [done|].
      apply nullable_lang in Ha. congruence.
  - split.
    + inversion 1 as [| | | |? ? u v Hu Hv| |]; subst.
      apply IHa in Hu. exact (lang_star_more a (String c u) v Hu Hv).
    + intros H. destruct (lang_star_cons a c s H) as (s1 & s2 & -> & H1 & H2).
      apply lang_seq; [by apply IHa | done].
Qed.

(** The test decides the language. *)
Lemma test_lang (r : regex) (s : string) : test r s = true <-> lang r s.
Proof.
  revert r. induction s as [|c s IH]; intros r; simpl.
  - apply nullable_lang.
  - rewrite IH. apply derive_lang.
Qed.

Lemma lang_class_plus (class : ascii -> bool) (s : string) :
  lang (Plus (Chars class)) s <->
  s <> "" /\ forall c, In c (list_ascii_of_string s) -> class c = true.
Proof.
  assert (Hstar : forall t, lang (Star (Chars class)) t <->
            forall c, In c (list_ascii_of_string t) -> class c = true).
  { intros t. split.
    - intros H. remember (Star (Chars class)) as r eqn:Er.
      induction H as [| | | | | |a' u v Hu _ Hv IHv]; try done.
      injection Er as ->. inversion Hu; subst. intros c' [<-|Hin]; [done|]. by apply IHv.
    - induction t as [|c t IH]; intros H; [constructor|].
      apply (lang_star_more _ (String c "") t).
      + constructor. apply H. simpl; auto.
      + apply IH. intros c' Hc'. apply H. simpl; auto. }
  split.
  - inversion 1 as [| | | |? ? u v Hu Hv| |]; subst. inversion Hu; subst.
    split; [done|]. intros c' [<-|Hin]; [done|]. exact (proj1 (Hstar v) Hv c' Hin).
  - intros [Hne Hall]. destruct s as [|c s]; [done|].
    apply (lang_seq _ _ (String c "") s).
    + constructor. apply Hall. simpl; auto.
    + apply Hstar. intros c' Hc'. apply Hall. simpl; auto.
Qed.

Lemma plain_In (s : string) :
  plain s = true <-> forall c, In c (list_ascii_of_string s) -> no_space_no_at c = true.
Proof.
  induction s as [|c s IH]; simpl; [split; [by intros _ ? []|done]|].
  rewrite andb_true_iff, IH. split.
  - intros [Hc Hs] c' [<-|Hin]; auto.
  - intros H. split; [apply H; auto|]. intros c' Hc'. apply H; auto.
Qed.

Lemma lang_one (c : ascii) (s : string) : lang (Chars (Ascii.eqb c)) s <-> s = String c "".
Proof.
  split.
  - inversion 1 as [|? c' Hc| | | | |]; subst. by apply Ascii.eqb_eq in Hc as ->.
  - intros ->. constructor. apply Ascii.eqb_refl.
Qed.

(** X27.  [validateEmail] accepts exactly the addresses made of a user,
    an [@], a domain, a dot and an ending, the three parts without white
    space and without [@], and none of them empty: one [@] only, a dot
    somewhere after it, neither right behind it nor last.  (The domain and
    the ending may hold dots of their own.) *)
Theorem validateEmail_accepts_user_at_domain_dot_ending (email : string) :
  isValid (Validators.validateEmail email) = true <->
  exists user domain ending,
    email = (user ++ "@" ++ domain ++ "." ++ ending)%string /\
    user <> "" /\ domain <> "" /\ ending <> "" /\
    plain user = true /\ plain domain = true /\ plain ending = true.
Proof.
  assert (Hvalid : isValid (Validators.validateEmail email) = true <-> lang emailRegex email).
  { unfold Validators.validateEmail. destruct (String.eqb email "") eqn:E.
    - apply String.eqb_eq in E as ->. split; [done|].
      intros H. apply test_lang in H. done.
    - rewrite <- test_lang. by destruct (test emailRegex email). }
  rewrite Hvalid. unfold emailRegex. split.
  - inversion 1 as [| | | |? ? user r1 Huser H1| |]; subst.
    inversion H1 as [| | | |? ? at_ r2 Hat H2| |]; subst.
    inversion H2 as [| | | |? ? domain r3 Hdomain H3| |]; subst.
    inversion H3 as [| | | |? ? dot ending Hdot Hending| |]; subst.
    apply lang_one in Hat as ->. apply lang_one in Hdot as ->.
    apply lang_class_plus in Huser as [? ?], Hdomain as [? ?], Hending as [? ?].
    exists user, domain, ending. rewrite !plain_In. by repeat split.
  - intros (user & domain & ending & -> & Hu & Hd & He & Hpu & Hpd & Hpe).
    rewrite plain_In in Hpu, Hpd, Hpe.
    apply lang_seq; [by apply lang_class_plus|].
    apply (lang_seq _ _ "@"); [by apply lang_one|].
    apply lang_seq; [by apply lang_class_plus|].
    apply (lang_seq _ _ "."); [by apply lang_one|].
    by apply lang_class_plus.
Qed.

(** X27 on a few addresses. *)
Lemma validateEmail_accepts_user_at_domain_dot_ending_witness :
  isValid (Validators.validateEmail "ann@books.example") = true /\
  isValid (Validators.validateEmail "ann@books") = false /\
  isValid (Validators.validateEmail "ann@@books.example") = false /\
  isValid (Validators.validateEmail "ann smith@books.example") = false.
Proof.
  split; [|by repeat split].
  apply validateEmail_accepts_user_at_domain_dot_ending.
  exists "ann", "books", "example". by repeat split.
Defined.
